(** * scholarphi data processing: bibliography scraping and entity upload

    A shallow embedding of

    - [data-processing/common/commands/upload_entities.py]: the loop of
      [UploadEntitiesCommand.load] that groups every detected entity with its
      hue locations (the "join" of the specification), and the entity type
      resolution of [make_upload_entities_command];
    - [data-processing/explanations/scrape_tex.py]: [parse_tex],
      [BibitemExtractor] and the regular-expression helpers.

    Python [str] values are Rocq strings, Python lists are lists, a [dict]
    is a [gmap], the [set] of scanned nodes is a [gset]; object attributes
    that the methods mutate are threaded as an explicit record. *)

From Stdlib Require Import Ascii String.
From stdpp Require Import gmap strings list.

Set Warnings "-register-all".

Local Open Scope string_scope.
Local Open Scope list_scope.

(** ** Python runtime values shared by both files *)

(** Outcome of a call: a returned value, or a raised exception of type [E]. *)
Inductive PyResult (E A : Type) :=
| Returned (a : A)
| Raised (e : E).
Arguments Returned {E A} a.
Arguments Raised {E A} e.

(** ** upload_entities.py *)

Module UploadEntities.

(** [common.types] is outside the embedded files.  Of a
    [SerializableEntity] the loop reads [id_] and [tex_path], of a
    [HueLocationInfo] it reads [entity_id] and [tex_path]; whatever else the
    records carry is the parameter [D], respectively [G]. *)
Record SerializableEntity (D : Type) := {
  id_ : string;
  tex_path : string;
  entity_fields : D
}.
Arguments id_ {D} _.
Arguments tex_path {D} _.
Arguments entity_fields {D} _.

Module HueLocationInfo.
Record t (G : Type) := {
  entity_id : string;
  tex_path : string;
  geometry : G
}.
Arguments entity_id {G} _.
Arguments tex_path {G} _.
Arguments geometry {G} _.
End HueLocationInfo.

Record EntityAndLocation (D G : Type) := {
  entity : SerializableEntity D;
  locations : list (HueLocationInfo.t G)
}.
Arguments Build_EntityAndLocation {D G} _ _.
Arguments entity {D G} _.
Arguments locations {D G} _.

Section Load.
Context {D G : Type}.
Implicit Types (entity : SerializableEntity D) (h : HueLocationInfo.t G).

(** [load], lines 83-86: the inner loop over [hue_location_infos]. *)
Definition matching_locations entity
    (hue_location_infos : list (HueLocationInfo.t G)) : list (HueLocationInfo.t G) :=
  foldl (fun matching h =>
           if String.eqb (HueLocationInfo.entity_id h) (id_ entity)
              && String.eqb (HueLocationInfo.tex_path h) (tex_path entity)
           then matching ++ [h]
           else matching)
        [] hue_location_infos.

(** [load], lines 81-88: the outer loop over [entities]. *)
Definition localized_enitites (entities : list (SerializableEntity D))
    (hue_location_infos : list (HueLocationInfo.t G)) : list (EntityAndLocation D G) :=
  foldl (fun localized entity =>
           localized ++ [Build_EntityAndLocation entity
                           (matching_locations entity hue_location_infos)])
        [] entities.

(** The specification calls this grouping [join]. *)
Definition join := localized_enitites.

(** The composite key on which the two record kinds are compared. *)
Definition entity_key entity : string * string := (id_ entity, tex_path entity).
Definition location_key h : string * string :=
  (HueLocationInfo.entity_id h, HueLocationInfo.tex_path h).
End Load.

(** *** Entity type resolution ([make_upload_entities_command]) *)

(** A value of [Type[SerializableEntity]]: the base class or a subclass. *)
Inductive EntityType :=
| SerializableEntityType
| Subclass (name : string).

(** [DetectedEntityTypeArg]: a dict from file name to type, a single type,
    or [None]. *)
Inductive DetectedEntityTypeArg :=
| ArgDict (d : gmap string EntityType)
| ArgType (t : EntityType)
| ArgNone.

Inductive LogRecord :=
| Warning (message : string).

(** [d[key]]: raises [KeyError] when the key is missing. *)
Inductive DictExc :=
| KeyError (key : string).

Definition dict_getitem (d : gmap string EntityType) (key : string)
    : PyResult DictExc EntityType :=
  match d !! key with
  | Some t => Returned t
  | None => Raised (KeyError key)
  end.

(** [UploadEntitiesCommand.get_detected_entity_type] (the base class). *)
Definition base_get_detected_entity_type (entity_filename : option string) : EntityType :=
  SerializableEntityType.

Definition no_entity_type_warning (entity_filename : string) : LogRecord :=
  Warning ("No entity type specified for file " +:+ entity_filename
           +:+ ". Only generic entity properties "
           +:+ "will be loaded for entities from file " +:+ entity_filename +:+ ".").

(** [C.get_detected_entity_type]; the second component is what the call
    hands to [logging.warning]. *)
Definition get_detected_entity_type (DetectedEntityType : DetectedEntityTypeArg)
    (entity_filename : option string) : PyResult DictExc EntityType * list LogRecord :=
  match entity_filename, DetectedEntityType with
  | None, _ | _, ArgNone =>
      (Returned (base_get_detected_entity_type entity_filename), [])
  | Some filename, ArgDict d =>
      match dict_getitem d filename with
      | Returned t => (Returned t, [])
      | Raised (KeyError _) =>
          (Returned (base_get_detected_entity_type entity_filename),
           [no_entity_type_warning filename])
      end
  | Some _, ArgType t => (Returned t, [])
  end.

End UploadEntities.

(** ** scrape_tex.py *)

Module ScrapeTex.

(** *** Python [str] helpers

    A character is a code point below 256.  [isspace] is the class that
    both [\s] (in a [str] pattern) and [str.strip] use. *)
Definition isspace (c : ascii) : bool :=
  let n := nat_of_ascii c in
  ((9 <=? n) && (n <=? 13) || (28 <=? n) && (n <=? 32)
   || (n =? 133) || (n =? 160))%nat.

Definition newline : ascii := ascii_of_nat 10.
Definition space : ascii := ascii_of_nat 32.

(** [re.sub(r"\s+", " ", text)]: every maximal run of whitespace becomes one
    space.  [in_run] tells that the previous character belonged to a run
    that has already been replaced. *)
Fixpoint sub_whitespace_runs (in_run : bool) (text : string) : string :=
  match text with
  | "" => ""
  | String c rest =>
      if isspace c
      then if in_run then sub_whitespace_runs true rest
           else String space (sub_whitespace_runs true rest)
      else String c (sub_whitespace_runs false rest)
  end.

(** [str.lstrip()], [str.rstrip()] and [str.strip()]. *)
Fixpoint lstrip (text : string) : string :=
  match text with
  | "" => ""
  | String c rest => if isspace c then lstrip rest else text
  end.

Fixpoint rstrip (text : string) : string :=
  match text with
  | "" => ""
  | String c rest =>
      match rstrip rest with
      | "" => if isspace c then "" else String c ""
      | kept => String c kept
      end
  end.

Definition strip (text : string) : string := rstrip (lstrip text).

Definition _clean_bibitem_text (text : string) : string :=
  strip (sub_whitespace_runs false text).

(** [TEX_BREAK = r"\n\s*?\n"].  [lazy_whitespace_newline text] tells whether
    [\s*?\n] matches at the head of [text]: the lazy star takes one more
    whitespace character only when no newline is next. *)
Fixpoint lazy_whitespace_newline (text : string) : bool :=
  match text with
  | "" => false
  | String c rest =>
      if Ascii.eqb c newline then true
      else isspace c && lazy_whitespace_newline rest
  end.

(** [re.search(TEX_BREAK, text)]: the offset at which the leftmost match
    starts, [None] when there is no match. *)
Fixpoint search_TEX_BREAK (text : string) : option nat :=
  match text with
  | "" => None
  | String c rest =>
      if Ascii.eqb c newline && lazy_whitespace_newline rest then Some 0
      else S <$> search_TEX_BREAK rest
  end.

Definition _contains_break (text : string) : bool :=
  match search_TEX_BREAK text with
  | Some _ => true
  | None => false
  end.

(** [re.split(TEX_BREAK, text, maxsplit=1)[0]]: the text in front of the
    leftmost match, the whole text when nothing matches. *)
Definition _get_text_before_break (text : string) : string :=
  match search_TEX_BREAK text with
  | Some start => substring 0 start text
  | None => text
  end.

(** *** The parse tree handed out by TexSoup

    TexSoup is an external library.  The extractor reads, of an argument,
    its class and [value] (a [str] in the library version that still exports
    [RArg] and [TokenWithPosition]); of a node, [expr], [string], [contents],
    [parent] and [find_all].  The search [find_all] is a parameter of the
    extractor, like the parser. *)
Inductive TexArg :=
| RArg (value : string)
| OArg (value : string).

Inductive TexExpr :=
| TexCmd (name : string) (args : list TexArg)
| TexEnv (name : string) (args : list TexArg).

Definition expr_name (e : TexExpr) : string :=
  match e with
  | TexCmd name _ | TexEnv name _ => name
  end.

(** One element of [node.contents]: a nested node, a text token, or an
    object of another class (the argument object of a bare group, for
    instance), of which the extractor sees only that it is neither of the
    two; [repr] is what it prints as. *)
Inductive Content :=
| TexNode (expr : TexExpr) (string_ : option string) (contents : list Content)
| TokenWithPosition (text : string)
| OtherItem (repr : string).

Definition contents_of (node : Content) : list Content :=
  match node with
  | TexNode _ _ contents => contents
  | TokenWithPosition _ | OtherItem _ => []
  end.

(** Python compares and hashes [TexNode] objects by identity.  An object is
    named by the number of the [TexSoup(...)] call that allocated its tree
    and by its path from the root of that tree. *)
Definition NodeId : Type := nat * list nat.

(** A node object as a search yields it: the node and its [parent]. *)
Record Descendant := {
  node : Content;
  node_path : list nat;
  parent_path : list nat;
  parent : Content
}.

(** The children of [self] from position [i] on, each followed by its own
    descendants: document order. *)
Fixpoint descendants (path : list nat) (self : Content) : list Descendant :=
  match self with
  | TokenWithPosition _ | OtherItem _ => []
  | TexNode _ _ contents =>
      (fix from (i : nat) (rest : list Content) : list Descendant :=
         match rest with
         | [] => []
         | child :: rest' =>
             {| node := child; node_path := path ++ [i];
                parent_path := path; parent := self |}
             :: descendants (path ++ [i]) child ++ from (S i) rest'
         end) 0 contents
  end.

(** [TexNode.__match__]: only nodes have a name, nothing else matches. *)
Definition name_matches (name : string) (c : Content) : bool :=
  match c with
  | TexNode e _ _ => String.eqb (expr_name e) name
  | TokenWithPosition _ | OtherItem _ => false
  end.

(** Two searches, to run the extractor on concrete trees.  The first yields
    the matching nodes in document order, which is the order that the
    specification speaks of. *)
Definition find_all_document_order (soup : Content) (name : string) : list Descendant :=
  List.filter (fun d => name_matches name (node d)) (descendants [] soup).

(** All children of a node, then for every child what lies below it. *)
Fixpoint children_first (path : list nat) (self : Content) : list Descendant :=
  match self with
  | TokenWithPosition _ | OtherItem _ => []
  | TexNode _ _ contents =>
      (fix direct (i : nat) (rest : list Content) : list Descendant :=
         match rest with
         | [] => []
         | child :: rest' =>
             {| node := child; node_path := path ++ [i];
                parent_path := path; parent := self |}
             :: direct (S i) rest'
         end) 0 contents
      ++ (fix below (i : nat) (rest : list Content) : list Descendant :=
            match rest with
            | [] => []
            | child :: rest' => children_first (path ++ [i]) child ++ below (S i) rest'
            end) 0 contents
  end.

(** The second yields the matching children of a node before any matching
    node below them: the contents of a node first, then what every child
    yields in turn. *)
Definition find_all_children_first (soup : Content) (name : string) : list Descendant :=
  List.filter (fun d => name_matches name (node d)) (children_first [] soup).

(** What [TexSoup(tex)] can raise. *)
Inductive TexSoupExc :=
| TypeError (msg : string)
| EOFError (msg : string)
| OtherError (cls : string) (msg : string).

Definition exc_str (e : TexSoupExc) : string :=
  match e with
  | TypeError msg | EOFError msg | OtherError _ msg => msg
  end.

(** What leaves [parse_tex] and [extract]: the module's own error class, or
    an exception of the parser that no handler caught. *)
Inductive ExtractExc :=
| TexSoupParseError (msg : string)
| Uncaught (e : TexSoupExc).

(** *** types.py *)
Record Bibitem := {
  key : string;
  text : string
}.

(** *** The extractor *)
Record BibitemExtractor := {
  current_bibitem_label : option string;
  bibitem_text : string;
  nodes_scanned : gset NodeId;
  bibitems : list Bibitem
}.

Definition BibitemExtractor__init__ : BibitemExtractor :=
  {| current_bibitem_label := None; bibitem_text := "";
     nodes_scanned := ∅; bibitems := [] |}.

Definition _extract_label (args : list TexArg) : option string :=
  (fix loop (rest : list TexArg) : option string :=
     match rest with
     | [] => None
     | RArg value :: _ => Some value
     | OArg _ :: rest' => loop rest'
     end) args.

Definition _finalize_bibitem (self : BibitemExtractor) : BibitemExtractor :=
  {| current_bibitem_label := None;
     bibitem_text := "";
     nodes_scanned := nodes_scanned self;
     bibitems :=
       match current_bibitem_label self with
       | Some label =>
           bibitems self
           ++ [{| key := label; text := _clean_bibitem_text (bibitem_text self) |}]
       | None => bibitems self
       end |}.

Definition set_label (self : BibitemExtractor) (label : option string) : BibitemExtractor :=
  {| current_bibitem_label := label;
     bibitem_text := bibitem_text self;
     nodes_scanned := nodes_scanned self;
     bibitems := bibitems self |}.

Definition append_text (self : BibitemExtractor) (more : string) : BibitemExtractor :=
  {| current_bibitem_label := current_bibitem_label self;
     bibitem_text := bibitem_text self +:+ more;
     nodes_scanned := nodes_scanned self;
     bibitems := bibitems self |}.

(** The arguments of [content] when it is a [\bibitem] command node. *)
Definition bibitem_cmd (content : Content) : option (list TexArg) :=
  match content with
  | TexNode (TexCmd name args) _ _ =>
      if String.eqb name "bibitem" then Some args else None
  | _ => None
  end.

(** Lines 64-68: the text a content element contributes, if any. *)
Definition content_text (content : Content) : option string :=
  match content with
  | TexNode _ (Some s) _ => Some s
  | TexNode _ None _ => None
  | TokenWithPosition t => Some t
  | OtherItem _ => None
  end.

Definition _process_content (self : BibitemExtractor) (content : Content) : BibitemExtractor :=
  match bibitem_cmd content with
  | Some args =>
      let self :=
        match current_bibitem_label self with
        | Some _ => _finalize_bibitem self
        | None => self
        end in
      set_label self (_extract_label args)
  | None =>
      match current_bibitem_label self, content_text content with
      | Some _, Some content_text =>
          if _contains_break content_text
          then _finalize_bibitem
                 (append_text self (_get_text_before_break content_text))
          else append_text self content_text
      | _, _ => self
      end
  end.

Definition add_scanned (self : BibitemExtractor) (n : NodeId) : BibitemExtractor :=
  {| current_bibitem_label := current_bibitem_label self;
     bibitem_text := bibitem_text self;
     nodes_scanned := {[n]} ∪ nodes_scanned self;
     bibitems := bibitems self |}.

Definition reset_bibitems (self : BibitemExtractor) : BibitemExtractor :=
  {| current_bibitem_label := current_bibitem_label self;
     bibitem_text := bibitem_text self;
     nodes_scanned := nodes_scanned self;
     bibitems := [] |}.

Section Parser.
(** The parser itself: [TexSoup(tex)]. *)
Variable TexSoup : string -> PyResult TexSoupExc Content.

(** The search: [soup.find_all(name)], the nodes it yields in the order in
    which it yields them. *)
Variable find_all : Content -> string -> list Descendant.

Definition parse_tex (tex : string) : PyResult ExtractExc Content :=
  match TexSoup tex with
  | Returned soup => Returned soup
  | Raised (TypeError _ as e) | Raised (EOFError _ as e) =>
      Raised (TexSoupParseError (exc_str e))
  | Raised e => Raised (Uncaught e)
  end.

(** The body of the [for bibitem in soup.find_all("bibitem")] loop;
    [soup_id] is the allocation number of the tree being scanned. *)
Definition scan_parent (soup_id : nat) (self : BibitemExtractor) (bibitem : Descendant)
    : BibitemExtractor :=
  let parent_id : NodeId := (soup_id, parent_path bibitem) in
  if decide (parent_id ∉ nodes_scanned self)
  then foldl _process_content (add_scanned self parent_id)
             (contents_of (parent bibitem))
  else self.

(** [BibitemExtractor.extract].  [heap] counts the trees allocated so far;
    the call returns its outcome, the extractor object as it leaves it and
    the new count. *)
Definition extract (self : BibitemExtractor) (tex : string) (heap : nat)
    : PyResult ExtractExc (list Bibitem) * BibitemExtractor * nat :=
  let self := reset_bibitems self in
  match parse_tex tex with
  | Raised e => (Raised e, self, heap)
  | Returned soup =>
      let self := foldl (scan_parent heap) self (find_all soup "bibitem") in
      let self := _finalize_bibitem self in
      (Returned (bibitems self), self, S heap)
  end.

(** [extract_bibitems]: a new extractor object for every call. *)
Definition extract_bibitems (tex : string) (heap : nat)
    : PyResult ExtractExc (list Bibitem) * nat :=
  let extractor := BibitemExtractor__init__ in
  let '(bibitems, _, heap) := extract extractor tex heap in
  (bibitems, heap).
End Parser.

End ScrapeTex.

(** ** Notions used to state the properties *)

Module Views.
Import ScrapeTex.

(** *** Text *)

(** The character at offset [i], as [String.get]. *)
Definition char_at (i : nat) (s : string) : option ascii := String.get i s.

Fixpoint last_char (s : string) : option ascii :=
  match s with
  | "" => None
  | String c "" => Some c
  | String _ rest => last_char rest
  end.

Definition is_space_opt (c : option ascii) : bool :=
  match c with
  | Some c => isspace c
  | None => false
  end.

(** Whitespace-normalized text: no whitespace at either end, and every
    whitespace character is one space with no whitespace after it. *)
Definition normalized (s : string) : Prop :=
  is_space_opt (char_at 0 s) = false
  ∧ is_space_opt (last_char s) = false
  ∧ ∀ i c, char_at i s = Some c → isspace c = true →
      c = space ∧ is_space_opt (char_at (S i) s) = false.

(** Every whitespace character is a space that no whitespace follows. *)
Fixpoint collapsed (s : string) : Prop :=
  match s with
  | "" => True
  | String c rest =>
      (isspace c = true → c = space ∧ is_space_opt (char_at 0 rest) = false)
      ∧ collapsed rest
  end.

(** The maximal runs of non-whitespace characters, as [str.split()] gives
    them; [word] is the run being read. *)
Fixpoint words_from (word : string) (s : string) : list string :=
  match s with
  | "" => match word with "" => [] | _ => [word] end
  | String c rest =>
      if isspace c
      then match word with
           | "" => words_from "" rest
           | _ => word :: words_from "" rest
           end
      else words_from (word +:+ String c "") rest
  end.

Definition words (s : string) : list string := words_from "" s.

Fixpoint all_chars (P : ascii → bool) (s : string) : bool :=
  match s with
  | "" => true
  | String c rest => P c && all_chars P rest
  end.

(** The language of [TEX_BREAK]: a newline, whitespace, a newline.  A match
    starts at offset [k] of [text] when what follows [k] characters begins
    with a string of that language. *)
Definition break_at (text : string) (k : nat) : Prop :=
  ∃ before ws after,
    text = before +:+ String newline (ws +:+ String newline after)
    ∧ String.length before = k
    ∧ all_chars isspace ws = true.

(** The first break of [text] starts at offset [k]. *)
Definition first_break_at (text : string) (k : nat) : Prop :=
  break_at text k ∧ ∀ j, j < k → ¬ break_at text j.

(** The paragraph break in the words of the specification: a newline,
    optional horizontal whitespace (space, tab, no-break space), a newline. *)
Definition is_horizontal_space (c : ascii) : bool :=
  let n := nat_of_ascii c in
  ((n =? 32) || (n =? 9) || (n =? 160))%nat.

Fixpoint spec_horizontal_then_newline (text : string) : bool :=
  match text with
  | "" => false
  | String c rest =>
      if Ascii.eqb c newline then true
      else is_horizontal_space c && spec_horizontal_then_newline rest
  end.

Fixpoint spec_search_break (text : string) : option nat :=
  match text with
  | "" => None
  | String c rest =>
      if Ascii.eqb c newline && spec_horizontal_then_newline rest then Some 0
      else S <$> spec_search_break rest
  end.

Definition spec_text_before_break (text : string) : string :=
  match spec_search_break text with
  | Some start => substring 0 start text
  | None => text
  end.

(** *** The state machine *)

(** Text is only ever collected under a label. *)
Definition label_invariant (self : BibitemExtractor) : Prop :=
  current_bibitem_label self = None → bibitem_text self = "".

(** The label a content element opens when it is a marker with a label. *)
Definition marker_label (content : Content) : option string :=
  bibitem_cmd content ≫= _extract_label.

Definition marker_labels (contents : list Content) : list string :=
  omap marker_label contents.


Definition set_scanned (self : BibitemExtractor) (scanned : gset NodeId) : BibitemExtractor :=
  {| current_bibitem_label := current_bibitem_label self;
     bibitem_text := bibitem_text self;
     nodes_scanned := scanned;
     bibitems := bibitems self |}.

(** *** The order of the scan *)

(** The found nodes whose parent is scanned: the first one of every parent
    whose path is not among [seen]. *)
Fixpoint parents_to_scan (seen : list (list nat)) (found : list Descendant)
    : list Descendant :=
  match found with
  | [] => []
  | d :: rest =>
      if decide (parent_path d ∈ seen) then parents_to_scan seen rest
      else d :: parents_to_scan (parent_path d :: seen) rest
  end.

(** The content elements in the order in which [extract] processes them,
    for the nodes that the search has found. *)
Definition scan_stream (found : list Descendant) : list Content :=
  parents_to_scan [] found ≫= (fun d => contents_of (parent d)).

(** The labels of the labelled markers among the found nodes, in the order
    of the search. *)
Definition found_labels (found : list Descendant) : list string :=
  marker_labels (node <$> found).

(** The search and [contents] agree: the [bibitem] nodes among the contents
    of the parent of a found node are the found nodes with that parent, in
    the same order. *)
Definition search_consistent (found : list Descendant) : Prop :=
  ∀ d, d ∈ found →
    filter (fun c => name_matches "bibitem" c = true) (contents_of (parent d))
    = node <$> filter (fun x => parent_path x = parent_path d) found.

(** [d] is the first of the found nodes that has its parent; the nodes
    [earlier] come before it in the search and the nodes [later] after it. *)
Definition first_of_parent (found earlier : list Descendant) (d : Descendant)
    (later : list Descendant) : Prop :=
  ∃ before after,
    found = before ++ d :: after
    ∧ (∀ x, x ∈ before → parent_path x ≠ parent_path d)
    ∧ earlier `sublist_of` before
    ∧ later `sublist_of` after.

(** What [extract] returns for a stream of content elements, starting with
    a new extractor. *)
Definition items_of_stream (stream : list Content) : list Bibitem :=
  bibitems (_finalize_bibitem (foldl _process_content BibitemExtractor__init__ stream)).

(** All content elements of the document, top to bottom. *)
Definition document_order (soup : Content) : list Content :=
  node <$> descendants [] soup.

(** The loop inside [descendants], from child number [i] on. *)
Fixpoint children_from (path : list nat) (self : Content) (i : nat)
    (rest : list Content) : list Descendant :=
  match rest with
  | [] => []
  | child :: rest' =>
      {| node := child; node_path := path ++ [i];
         parent_path := path; parent := self |}
      :: descendants (path ++ [i]) child ++ children_from path self (S i) rest'
  end.

(** The children alone, without what lies below them. *)
Fixpoint direct_from (path : list nat) (self : Content) (i : nat)
    (rest : list Content) : list Descendant :=
  match rest with
  | [] => []
  | child :: rest' =>
      {| node := child; node_path := path ++ [i];
         parent_path := path; parent := self |}
      :: direct_from path self (S i) rest'
  end.

(** Below [c], the descendants that share a parent are the children of
    that parent, in order. *)
Definition grouped_below (c : Content) : Prop :=
  ∀ path d, d ∈ descendants path c →
    filter (fun x => parent_path x = parent_path d) (descendants path c)
    = direct_from (parent_path d) (parent d) 0 (contents_of (parent d)).

(** The second loop inside [children_first], from child number [i] on. *)
Fixpoint below_from (path : list nat) (i : nat) (rest : list Content)
    : list Descendant :=
  match rest with
  | [] => []
  | child :: rest' => children_first (path ++ [i]) child ++ below_from path (S i) rest'
  end.

(** The same for the search that yields children first. *)
Definition grouped_children_first (c : Content) : Prop :=
  ∀ path d, d ∈ children_first path c →
    filter (fun x => parent_path x = parent_path d) (children_first path c)
    = direct_from (parent_path d) (parent d) 0 (contents_of (parent d)).

End Views.

(** ** Concrete inputs *)

Module Examples.
Import UploadEntities ScrapeTex.

Definition e1 : SerializableEntity unit :=
  {| id_ := "e1"; tex_path := "p.tex"; entity_fields := tt |}.
Definition e1_again : SerializableEntity unit :=
  {| id_ := "e1"; tex_path := "p.tex"; entity_fields := tt |}.
Definition e2 : SerializableEntity unit :=
  {| id_ := "e2"; tex_path := "p.tex"; entity_fields := tt |}.
Definition box (id path : string) (name : string) : HueLocationInfo.t string :=
  {| HueLocationInfo.entity_id := id; HueLocationInfo.tex_path := path;
     HueLocationInfo.geometry := name |}.
Definition three_boxes : list (HueLocationInfo.t string) :=
  [box "e1" "p.tex" "A"; box "e1" "p.tex" "B"; box "e1" "q.tex" "C"].

Definition nl : string := String newline "".
Definition form_feed : string := String (ascii_of_nat 12) "".
Definition carriage_return : string := String (ascii_of_nat 13) "".

(** [\bibitem{label}] and [\bibitem[opt]] (no required argument). *)
Definition bibitem (label : string) : Content :=
  TexNode (TexCmd "bibitem" [RArg label]) (Some label) [].
Definition bibitem_without_label : Content :=
  TexNode (TexCmd "bibitem" [OArg "Knuth"]) (Some "Knuth") [].
Definition tex (contents : list Content) : Content :=
  TexNode (TexEnv "[tex]" []) None contents.
Definition env (name : string) (contents : list Content) : Content :=
  TexNode (TexEnv name []) None contents.

(** [\bibitem{a} Alpha text. \bibitem{b} Beta text.] *)
Definition two_items : Content :=
  tex [bibitem "a"; TokenWithPosition " Alpha text. ";
       bibitem "b"; TokenWithPosition " Beta text."].

(** [\bibitem{a} Alpha\n\nstray text \bibitem{b} Beta] *)
Definition stray_text : Content :=
  tex [bibitem "a"; TokenWithPosition (" Alpha" +:+ nl +:+ nl +:+ "stray text ");
       bibitem "b"; TokenWithPosition " Beta"].

(** [\bibitem{a} A \begin{small}\bibitem{b} B\end{small} \bibitem{c} C] *)
Definition nested_block : Content :=
  tex [bibitem "a"; TokenWithPosition " A ";
       env "small" [bibitem "b"; TokenWithPosition " B"];
       bibitem "c"; TokenWithPosition " C"].

Definition open_a : BibitemExtractor :=
  {| current_bibitem_label := Some "a"; bibitem_text := "";
     nodes_scanned := ∅; bibitems := [] |}.

(** [\bibitem[Knuth]{knuth84}{extra}] *)
Definition bibitem_knuth : Content :=
  TexNode (TexCmd "bibitem" [OArg "Knuth"; RArg "knuth84"; RArg "extra"]) None [].

(** A comment-like node: no [string], not a marker. *)
Definition structural : Content := TexNode (TexEnv "comment" []) None [].

(** [ Alpha\n \t\nstray text ] *)
Definition alpha_break_stray : string :=
  " Alpha" +:+ nl +:+ " " +:+ String (ascii_of_nat 9) "" +:+ nl +:+ "stray text ".

(** [A\n\fB\n\nC]: a form feed on the line between the first two
    newlines. *)
Definition form_feed_line : string :=
  "A" +:+ nl +:+ form_feed +:+ nl +:+ "B" +:+ nl +:+ nl +:+ "C".

(** [A\r\n\r\nB\n\nC]: the first two lines end in CR LF. *)
Definition crlf_lines : string :=
  "A" +:+ carriage_return +:+ nl +:+ carriage_return +:+ nl
  +:+ "B" +:+ nl +:+ nl +:+ "C".

Definition nested_block_tex : string :=
  "\bibitem{a} A \begin{small}\bibitem{b} B\end{small} \bibitem{c} C".

Definition two_items_tex : string :=
  "\bibitem{a} Alpha text. \bibitem{b} Beta text.".

Definition stray_text_tex : string :=
  "\bibitem{a} Alpha" +:+ nl +:+ nl +:+ "stray text \bibitem{b} Beta".

Definition deeply_nested_tex : string := "{{{{{{{{ ... }}}}}}}}".

Definition recursion_error : TexSoupExc :=
  OtherError "RecursionError" "maximum recursion depth exceeded".

(** [{\bibitem{x} hidden}]: a bare group among the contents. *)
Definition bare_group : Content := OtherItem "{\bibitem{x} hidden}".

(** [\bibitem{a} A {\bibitem{x} hidden} \bibitem{b} B] *)
Definition with_bare_group : Content :=
  tex [bibitem "a"; TokenWithPosition " A "; bare_group;
       bibitem "b"; TokenWithPosition " B"].
Definition with_bare_group_tex : string :=
  "\bibitem{a} A {\bibitem{x} hidden} \bibitem{b} B".

(** [No references. \bibitem[Knuth]] *)
Definition no_references : Content :=
  tex [TokenWithPosition "No references."; bibitem_without_label].
Definition no_references_tex : string := "No references. \bibitem[Knuth]".

Definition parses_to (soup : Content) : string → PyResult TexSoupExc Content :=
  fun _ => Returned soup.
Definition fails_with (e : TexSoupExc) : string → PyResult TexSoupExc Content :=
  fun _ => Raised e.

End Examples.

(** ** The rest of upload_entities.py *)

Module UploadCommand.
Import UploadEntities.

Record PaperProcessingResult (D G : Type) := {
  arxiv_id : string;
  s2_id : string;
  localized_entities : list (EntityAndLocation D G)
}.
Arguments arxiv_id {D G} _.
Arguments s2_id {D G} _.
Arguments localized_entities {D G} _.

(** The f-strings of the class [C] that [make_upload_entities_command]
    builds for [entity_name]. *)
Definition get_name (entity_name : string) : string := "upload-" +:+ entity_name.
Definition get_description (entity_name : string) : string :=
  "Upload " +:+ entity_name +:+ " and their locations to the database.".
Definition get_detected_entities_dirkey (entity_name : string) : string :=
  "detected-" +:+ entity_name.
Definition get_hue_locations_dirkey (entity_name : string) : string :=
  entity_name +:+ "-locations".
Definition get_arxiv_ids_dirkey (entity_name : string) : string :=
  get_hue_locations_dirkey entity_name.

(** What a consumer of the generator [load] observes, in order: the
    warnings handed to [logging] and the results yielded. *)
Inductive Event (D G : Type) :=
| Logged (record : LogRecord)
| Yielded (result : PaperProcessingResult D G).
Arguments Logged {D G} record.
Arguments Yielded {D G} result.

Section LoadCommand.
Context {D G : Type}.

(** A computation: the events so far, and a value or the exception that
    ended it. *)
Definition Run (A : Type) : Type := PyResult DictExc A * list (Event D G).

Definition ret {A} (a : A) : Run A := (Returned a, []).

Definition bind {A B} (m : Run A) (f : A → Run B) : Run B :=
  match m with
  | (Returned a, events) => let '(r, events') := f a in (r, events ++ events')
  | (Raised e, events) => (Raised e, events)
  end.

Definition logging_warning (message : string) : Run unit :=
  (Returned tt, [Logged (Warning message)]).

Definition yield (result : PaperProcessingResult D G) : Run unit :=
  (Returned tt, [Yielded result]).

(** [for x in xs: body], with the variables the body assigns as [s]. *)
Fixpoint for_each {X S} (xs : list X) (s : S) (body : S → X → Run S) : Run S :=
  match xs with
  | [] => ret s
  | x :: rest => bind (body s x) (fun s' => for_each rest s' body)
  end.

(** The collaborators outside the embedded files: [directories.arxiv_subdir],
    [os.path.join], [os.path.exists], [open(...).read()], [glob.glob],
    [os.path.basename] and [file_utils.load_from_csv] for the two record
    kinds. *)
Variable arxiv_subdir : string → string → string.
Variable path_join : string → string → string.
Variable path_exists : string → bool.
Variable read_file : string → string.
Variable glob : string → list string.
Variable basename : string → string.
Variable load_entities_from_csv : string → EntityType → list (SerializableEntity D).
Variable load_hue_locations_from_csv : string → list (HueLocationInfo.t G).

(** The arguments of [make_upload_entities_command]. *)
Variable entity_name : string.
Variable DetectedEntityType : DetectedEntityTypeArg.

Definition self_get_detected_entity_type (entity_filename : option string)
    : Run EntityType :=
  let '(r, warnings) := get_detected_entity_type DetectedEntityType entity_filename in
  (r, Logged <$> warnings).

Definition s2_id_path (arxiv_id : string) : string :=
  path_join (arxiv_subdir "s2-metadata" arxiv_id) "s2_id".

Definition missing_s2_id_warning (arxiv_id : string) : string :=
  "Could not find S2 ID file for " +:+ arxiv_id +:+ ". Skipping".

(** [load], lines 58-68: the entities of all files of one paper. *)
Definition load_all_entities (arxiv_id : string) : Run (list (SerializableEntity D)) :=
  let entities_dir := arxiv_subdir (get_detected_entities_dirkey entity_name) arxiv_id in
  for_each (glob (path_join entities_dir "entities*.csv")) []
    (fun entities entities_path =>
       bind (self_get_detected_entity_type (Some (basename entities_path)))
         (fun entity_type =>
            ret (entities ++ load_entities_from_csv entities_path entity_type))).

(** [load], lines 43-92: the body of the loop over [self.arxiv_ids]. *)
Definition load_paper (arxiv_id : string) : Run unit :=
  if negb (path_exists (s2_id_path arxiv_id))
  then logging_warning (missing_s2_id_warning arxiv_id)
  else
    let s2_id := read_file (s2_id_path arxiv_id) in
    bind (load_all_entities arxiv_id)
      (fun entities =>
         let hue_locations_path :=
           path_join (arxiv_subdir (get_hue_locations_dirkey entity_name) arxiv_id)
                     "entity_locations.csv" in
         let hue_location_infos := load_hue_locations_from_csv hue_locations_path in
         yield {| arxiv_id := arxiv_id; s2_id := s2_id;
                  localized_entities :=
                    localized_enitites entities hue_location_infos |}).

Definition load (arxiv_ids : list string) : Run unit :=
  for_each arxiv_ids tt (fun _ arxiv_id => load_paper arxiv_id).

End LoadCommand.

(** The results among the events, and the warnings among them. *)
Definition yields {D G} (events : list (Event D G)) : list (PaperProcessingResult D G) :=
  omap (fun e => match e with Yielded r => Some r | Logged _ => None end) events.
Definition warnings {D G} (events : list (Event D G)) : list LogRecord :=
  omap (fun e => match e with Logged w => Some w | Yielded _ => None end) events.

End UploadCommand.

(** ** Further notions used to state properties *)

Module MoreViews.
Import UploadEntities UploadCommand ScrapeTex Views.

(** The type that [get_detected_entity_type] settles on for a file name,
    and the warnings it logs on the way. *)
Definition entity_type_of (DetectedEntityType : DetectedEntityTypeArg)
    (filename : string) : EntityType :=
  match DetectedEntityType with
  | ArgDict d => default SerializableEntityType (d !! filename)
  | ArgType t => t
  | ArgNone => SerializableEntityType
  end.

Definition entity_type_warnings (DetectedEntityType : DetectedEntityTypeArg)
    (filename : string) : list LogRecord :=
  match DetectedEntityType with
  | ArgDict d =>
      match d !! filename with
      | Some _ => []
      | None => [no_entity_type_warning filename]
      end
  | _ => []
  end.

Section LoadViews.
Context {D G : Type}.
Variable arxiv_subdir : string → string → string.
Variable path_join : string → string → string.
Variable read_file : string → string.
Variable glob : string → list string.
Variable basename : string → string.
Variable load_entities_from_csv : string → EntityType → list (SerializableEntity D).
Variable load_hue_locations_from_csv : string → list (HueLocationInfo.t G).
Variable entity_name : string.
Variable DetectedEntityType : DetectedEntityTypeArg.

(** The entity files of a paper, as [glob] lists them. *)
Definition entity_files (arxiv_id : string) : list string :=
  glob (path_join
          (arxiv_subdir (get_detected_entities_dirkey entity_name) arxiv_id)
          "entities*.csv").

(** The rows of all entity files of a paper, file after file. *)
Definition entities_of_paper (arxiv_id : string) : list (SerializableEntity D) :=
  entity_files arxiv_id
  ≫= (fun path => load_entities_from_csv path
                     (entity_type_of DetectedEntityType (basename path))).

Definition hue_locations_of_paper (arxiv_id : string) : list (HueLocationInfo.t G) :=
  load_hue_locations_from_csv
    (path_join (arxiv_subdir (get_hue_locations_dirkey entity_name) arxiv_id)
               "entity_locations.csv").

Definition result_of_paper (arxiv_id : string) : PaperProcessingResult D G :=
  {| arxiv_id := arxiv_id;
     s2_id := read_file (s2_id_path arxiv_subdir path_join arxiv_id);
     localized_entities :=
       join (entities_of_paper arxiv_id) (hue_locations_of_paper arxiv_id) |}.

(** The warnings of one paper: one for the missing S2 id, or one per entity
    file without a type. *)
Definition warnings_of_paper (path_exists : string → bool) (arxiv_id : string)
    : list LogRecord :=
  if path_exists (s2_id_path arxiv_subdir path_join arxiv_id)
  then entity_files arxiv_id
       ≫= (fun path => entity_type_warnings DetectedEntityType (basename path))
  else [Warning (missing_s2_id_warning arxiv_id)].
End LoadViews.

(** [" ".join(words)]. *)
Fixpoint unwords (ws : list string) : string :=
  match ws with
  | [] => ""
  | [w] => w
  | w :: rest => w +:+ String space (unwords rest)
  end.

(** The texts that a list of content elements contributes, joined. *)
Fixpoint texts_of (contents : list Content) : string :=
  match contents with
  | [] => ""
  | c :: rest =>
      match content_text c with
      | Some t => t +:+ texts_of rest
      | None => texts_of rest
      end
  end.

(** A content element of the body of an item: no marker, and no paragraph
    break in its text. *)
Definition plain_body (c : Content) : Prop :=
  bibitem_cmd c = None
  ∧ ∀ t, content_text c = Some t → _contains_break t = false.

(** [s] is the beginning of [t]. *)
Definition string_prefix (s t : string) : Prop := ∃ rest, t = s +:+ rest.

(** One extractor object used for one text after the other: the object and
    the heap after the last call. *)
Fixpoint extract_all (TexSoup : string → PyResult TexSoupExc Content)
    (find_all : Content → string → list Descendant)
    (self : BibitemExtractor) (texts : list string) (heap : nat)
    : BibitemExtractor * nat :=
  match texts with
  | [] => (self, heap)
  | tex :: rest =>
      let '(_, self', heap') := extract TexSoup find_all self tex heap in
      extract_all TexSoup find_all self' rest heap'
  end.

End MoreViews.

(** ** Further concrete inputs *)

Module MoreExamples.
Import UploadEntities UploadCommand ScrapeTex Examples.

Definition body_fragments : list Content :=
  [TokenWithPosition " D. Knuth. "; structural;
   TexNode (TexCmd "emph" [RArg "The TeXbook"]) (Some "The TeXbook") [];
   TokenWithPosition ", 1984."].

(** A paper directory with two entity files, and one without S2 id. *)
Definition fs_arxiv_subdir (dirkey arxiv_id : string) : string :=
  dirkey +:+ "/" +:+ arxiv_id.
Definition fs_path_join (dir name : string) : string := dir +:+ "/" +:+ name.
Definition fs_path_exists (path : string) : bool :=
  String.eqb path "s2-metadata/1601.00001/s2_id".
Definition fs_read_file (path : string) : string := "s2-42".
Definition fs_glob (pattern : string) : list string :=
  if String.eqb pattern "detected-symbols/1601.00001/entities*.csv"
  then ["detected-symbols/1601.00001/entities-a.csv";
        "detected-symbols/1601.00001/entities-b.csv"]
  else [].
Definition fs_basename (path : string) : string :=
  if String.eqb path "detected-symbols/1601.00001/entities-a.csv" then "entities-a.csv"
  else "entities-b.csv".
Definition fs_load_entities (path : string) (t : EntityType)
    : list (SerializableEntity unit) :=
  if String.eqb path "detected-symbols/1601.00001/entities-a.csv" then [e1] else [e2].
Definition fs_load_hue_locations (path : string) : list (HueLocationInfo.t string) :=
  three_boxes.
Definition fs_types : DetectedEntityTypeArg :=
  ArgDict {[ "entities-a.csv" := Subclass "Symbol" ]}.

Definition fs_load : list string → Run unit :=
  load fs_arxiv_subdir fs_path_join fs_path_exists fs_read_file fs_glob fs_basename
       fs_load_entities fs_load_hue_locations "symbols" fs_types.

End MoreExamples.

(** * Properties *)

(** ** The entity-location grouping of [load] *)

Section LoadFacts.
Import UploadEntities.
Context {D G : Type}.
Implicit Types (e : SerializableEntity D) (h : HueLocationInfo.t G).
Implicit Types (entities : list (SerializableEntity D)).
Implicit Types (locs : list (HueLocationInfo.t G)).

(** The test of line 85 decides equality of the two composite keys. *)
Lemma key_test_spec e h :
  String.eqb (HueLocationInfo.entity_id h) (id_ e)
  && String.eqb (HueLocationInfo.tex_path h) (tex_path e) = true
  ↔ location_key h = entity_key e.
Proof.
  unfold location_key, entity_key.
  rewrite andb_true_iff, !String.eqb_eq. split.
  - intros [-> ->]. reflexivity.
  - intros [= -> ->]. split; reflexivity.
Qed.

(** The inner loop, started from any list collected so far. *)
Lemma matching_loop_filter e locs acc :
  foldl (fun matching h =>
           if String.eqb (HueLocationInfo.entity_id h) (id_ e)
              && String.eqb (HueLocationInfo.tex_path h) (tex_path e)
           then matching ++ [h] else matching) acc locs
  = acc ++ filter (fun h => location_key h = entity_key e) locs.
Proof.
  revert acc. induction locs as [|h locs IH]; intros acc; simpl.
  - by rewrite app_nil_r.
  - rewrite IH. destruct (_ && _) eqn:Htest.
    + apply key_test_spec in Htest.
      rewrite filter_cons_True by done. by rewrite <- app_assoc.
    + rewrite filter_cons_False; [done|].
      intros Hkey. apply key_test_spec in Hkey. congruence.
Qed.

Lemma matching_locations_filter e locs :
  matching_locations e locs = filter (fun h => location_key h = entity_key e) locs.
Proof. unfold matching_locations. by rewrite matching_loop_filter. Qed.

Lemma localized_loop_fmap entities locs acc :
  foldl (fun localized e =>
           localized ++ [Build_EntityAndLocation e (matching_locations e locs)])
        acc entities
  = acc ++ ((fun e => Build_EntityAndLocation e (matching_locations e locs)) <$> entities).
Proof.
  revert acc. induction entities as [|e entities IH]; intros acc; simpl.
  - by rewrite app_nil_r.
  - rewrite IH. by rewrite <- app_assoc.
Qed.

Lemma join_fmap entities locs :
  join entities locs
  = (fun e => Build_EntityAndLocation e
                (filter (fun h => location_key h = entity_key e) locs)) <$> entities.
Proof.
  unfold join, localized_enitites. rewrite localized_loop_fmap. simpl.
  apply list_fmap_ext. intros _ e _. by rewrite matching_locations_filter.
Qed.

Lemma join_lookup entities locs i :
  join entities locs !! i
  = (fun e => Build_EntityAndLocation e
                (filter (fun h => location_key h = entity_key e) locs))
    <$> entities !! i.
Proof. by rewrite join_fmap, list_lookup_fmap. Qed.

(** C1: [join] yields one record per input entity, in input order; the
    record at position [i] holds the [i]-th entity and exactly the location
    records whose composite key equals the entity's, in the order of the
    location input (a sublist of it); with no such record the list is
    empty and the entity is still there. *)
Theorem join_one_record_per_entity entities locs :
  length (join entities locs) = length entities
  ∧ entity <$> join entities locs = entities
  ∧ (∀ i e, entities !! i = Some e →
       ∃ r, join entities locs !! i = Some r
            ∧ entity r = e
            ∧ locations r = filter (fun h => location_key h = entity_key e) locs
            ∧ locations r `sublist_of` locs
            ∧ (∀ h, h ∈ locations r ↔ h ∈ locs ∧ location_key h = entity_key e)
            ∧ ((∀ h, h ∈ locs → location_key h ≠ entity_key e) → locations r = [])).
Proof.
  split; [|split].
  - by rewrite join_fmap, length_fmap.
  - rewrite join_fmap, <- list_fmap_compose. simpl.
    induction entities as [|e entities IH]; [done|]. simpl. by f_equal.
  - intros i e Hi. eexists. rewrite join_lookup, Hi. simpl.
    split; [reflexivity|]. simpl. split; [done|]. split; [done|].
    split; [apply sublist_filter|]. split.
    + intros h. rewrite list_elem_of_filter. tauto.
    + intros Hnone. induction locs as [|h locs IH]; [done|].
      rewrite filter_cons_False.
      * apply IH. intros h' Hh'. apply Hnone. by right.
      * apply Hnone. by left.
Qed.

(** C10: entities that share a composite key are not merged: two
    different positions of the input with the same key give two records,
    each at its own position, and both carry the same, complete list of
    matching locations. *)
Theorem join_keeps_duplicate_entities entities locs i j e1 e2 :
  i ≠ j →
  entities !! i = Some e1 →
  entities !! j = Some e2 →
  entity_key e1 = entity_key e2 →
  length (join entities locs) = length entities
  ∧ ∃ matching,
      matching = filter (fun h => location_key h = entity_key e1) locs
      ∧ join entities locs !! i = Some (Build_EntityAndLocation e1 matching)
      ∧ join entities locs !! j = Some (Build_EntityAndLocation e2 matching).
Proof.
  intros _ Hi Hj Hkey. split.
  - by rewrite join_fmap, length_fmap.
  - eexists. split; [reflexivity|].
    rewrite !join_lookup, Hi, Hj. simpl. by rewrite Hkey.
Qed.
End LoadFacts.

Section LoadExamples.
Import UploadEntities Examples.

(** The two scenarios of the specification, and an entity without any
    location next to one with two. *)
Lemma join_one_record_per_entity_witness :
  (∃ r, join [e1; e2] three_boxes !! 0 = Some r
        ∧ locations r = [box "e1" "p.tex" "A"; box "e1" "p.tex" "B"])
  ∧ (∃ r, join [e1; e2] three_boxes !! 1 = Some r ∧ locations r = []).
Proof.
  destruct (join_one_record_per_entity [e1; e2] three_boxes) as (_ & _ & H).
  split.
  - destruct (H 0 e1 eq_refl) as (r & Hr & _ & Hlocs & _).
    exists r. split; [exact Hr|]. rewrite Hlocs. reflexivity.
  - destruct (H 1 e2 eq_refl) as (r & Hr & _ & _ & _ & _ & Hnone).
    exists r. split; [exact Hr|]. apply Hnone.
    intros h Hh. unfold three_boxes in Hh.
    repeat (apply elem_of_cons in Hh as [->|Hh]; [discriminate|]).
    by apply elem_of_nil in Hh.
Defined.

Lemma join_keeps_duplicate_entities_witness :
  length (join [e1; e2; e1_again] three_boxes) = 3
  ∧ ∃ matching,
      matching = [box "e1" "p.tex" "A"; box "e1" "p.tex" "B"]
      ∧ join [e1; e2; e1_again] three_boxes !! 0
        = Some (Build_EntityAndLocation e1 matching)
      ∧ join [e1; e2; e1_again] three_boxes !! 2
        = Some (Build_EntityAndLocation e1_again matching).
Proof.
  refine (join_keeps_duplicate_entities [e1; e2; e1_again] three_boxes 0 2
            e1 e1_again _ eq_refl eq_refl eq_refl).
  discriminate.
Defined.
End LoadExamples.

(** ** Entity type resolution *)

Section EntityTypeFacts.
Import UploadEntities.

(** C5 as it is worded asks for a warning also when no mapping was
    supplied; there the call returns the generic type and logs nothing. *)
Lemma no_mapping_logs_no_warning :
  get_detected_entity_type ArgNone (Some "entities.csv")
  = (Returned SerializableEntityType, [])
  ∧ ¬ (∃ w, w ∈ (get_detected_entity_type ArgNone (Some "entities.csv")).2).
Proof.
  split; [reflexivity|]. simpl. intros [w Hw]. by apply elem_of_nil in Hw.
Qed.

(** C5, amended: the file name is looked up by exact match in the supplied
    dict; a file name missing from the dict gives the generic type and one
    warning; with no dict supplied the generic type is returned and nothing
    is logged; the call never raises. *)
Theorem entity_type_resolution (filename : string) :
  (∀ (d : gmap string EntityType) t, d !! filename = Some t →
     get_detected_entity_type (ArgDict d) (Some filename) = (Returned t, []))
  ∧ (∀ (d : gmap string EntityType), d !! filename = None →
     get_detected_entity_type (ArgDict d) (Some filename)
     = (Returned SerializableEntityType, [no_entity_type_warning filename]))
  ∧ get_detected_entity_type ArgNone (Some filename)
    = (Returned SerializableEntityType, [])
  ∧ (∀ arg name, ∃ t, (get_detected_entity_type arg name).1 = Returned t).
Proof.
  repeat split.
  - intros d t Hd. unfold get_detected_entity_type, dict_getitem. by rewrite Hd.
  - intros d Hd. unfold get_detected_entity_type, dict_getitem. by rewrite Hd.
  - intros arg name. unfold get_detected_entity_type, dict_getitem.
    destruct name as [f|], arg as [d|t|]; simpl; eauto.
    destruct (d !! f); simpl; eauto.
Qed.

Lemma entity_type_resolution_witness :
  get_detected_entity_type
    (ArgDict {[ "entities-terms.csv" := Subclass "Term" ]})
    (Some "entities-terms.csv")
  = (Returned (Subclass "Term"), [])
  ∧ get_detected_entity_type
      (ArgDict {[ "entities-terms.csv" := Subclass "Term" ]})
      (Some "entities-symbols.csv")
    = (Returned SerializableEntityType,
       [no_entity_type_warning "entities-symbols.csv"]).
Proof.
  split.
  - destruct (entity_type_resolution "entities-terms.csv") as (H & _).
    apply H. reflexivity.
  - destruct (entity_type_resolution "entities-symbols.csv") as (_ & H & _).
    apply H. reflexivity.
Defined.
End EntityTypeFacts.

(** ** Text cleaning and the paragraph break *)

Section TextFacts.
Import ScrapeTex Views.

Lemma isspace_space : isspace space = true.
Proof. reflexivity. Qed.

Lemma isspace_newline : isspace newline = true.
Proof. reflexivity. Qed.

Lemma sub_in_run_head s : is_space_opt (char_at 0 (sub_whitespace_runs true s)) = false.
Proof.
  induction s as [|c s IH]; simpl; [done|].
  destruct (isspace c) eqn:Hc; [done|]. simpl. exact Hc.
Qed.

Lemma sub_collapsed s in_run : collapsed (sub_whitespace_runs in_run s).
Proof.
  revert in_run. induction s as [|c s IH]; intros in_run; simpl; [done|].
  destruct (isspace c) eqn:Hc.
  - destruct in_run; [apply IH|]. simpl. split; [|apply IH].
    intros _. split; [done|]. apply sub_in_run_head.
  - simpl. split; [|apply IH]. rewrite Hc. discriminate.
Qed.

Lemma lstrip_collapsed s : collapsed s → collapsed (lstrip s).
Proof.
  induction s as [|c s IH]; simpl; [done|].
  intros [Hc Hs]. destruct (isspace c) eqn:Hsp; [by apply IH|]. simpl.
  rewrite Hsp. by split.
Qed.

Lemma lstrip_head s : is_space_opt (char_at 0 (lstrip s)) = false.
Proof.
  induction s as [|c s IH]; simpl; [done|].
  destruct (isspace c) eqn:Hc; [done|]. simpl. exact Hc.
Qed.

Lemma rstrip_cons c s :
  rstrip (String c s) = "" ∨ ∃ kept, rstrip (String c s) = String c kept.
Proof.
  simpl. destruct (rstrip s).
  - destruct (isspace c); eauto.
  - eauto.
Qed.

Lemma rstrip_head s : char_at 0 (rstrip s) = None ∨ char_at 0 (rstrip s) = char_at 0 s.
Proof.
  destruct s as [|c s]; [by left|].
  destruct (rstrip_cons c s) as [->|[kept ->]]; [by left|by right].
Qed.

Lemma rstrip_head_space s :
  is_space_opt (char_at 0 s) = false → is_space_opt (char_at 0 (rstrip s)) = false.
Proof. intros Hs. by destruct (rstrip_head s) as [->| ->]. Qed.

Lemma rstrip_collapsed s : collapsed s → collapsed (rstrip s).
Proof.
  induction s as [|c s IH]; simpl; [done|].
  intros [Hc Hs]. specialize (IH Hs).
  destruct (rstrip s) as [|k kept] eqn:Hk.
  - destruct (isspace c) eqn:Hsp; simpl; [done|]. split; [|done].
    rewrite Hsp. discriminate.
  - simpl. split; [|exact IH]. intros Hsp. destruct (Hc Hsp) as [-> Hnext].
    split; [done|]. apply rstrip_head_space in Hnext. by rewrite Hk in Hnext.
Qed.

Lemma rstrip_last s : is_space_opt (last_char (rstrip s)) = false.
Proof.
  induction s as [|c s IH]; simpl; [done|].
  destruct (rstrip s) as [|k kept] eqn:Hk.
  - destruct (isspace c) eqn:Hsp; simpl; [done|]. exact Hsp.
  - exact IH.
Qed.

Lemma collapsed_at s i c :
  collapsed s → char_at i s = Some c → isspace c = true →
  c = space ∧ is_space_opt (char_at (S i) s) = false.
Proof.
  revert i. induction s as [|a s IH]; intros i; simpl; [done|].
  intros [Ha Hs]. destruct i as [|i]; simpl.
  - intros [= ->] Hsp. apply Ha, Hsp.
  - apply IH, Hs.
Qed.

(** The cleaned text is whitespace-normalized. *)
Lemma clean_normalized s : normalized (_clean_bibitem_text s).
Proof.
  unfold _clean_bibitem_text, strip. split; [|split].
  - apply rstrip_head_space, lstrip_head.
  - apply rstrip_last.
  - intros i c. apply collapsed_at.
    apply rstrip_collapsed, lstrip_collapsed, sub_collapsed.
Qed.

(** Cleaning keeps the words and their order. *)
Lemma words_from_sub s in_run word :
  (in_run = true → word = "") →
  words_from word (sub_whitespace_runs in_run s) = words_from word s.
Proof.
  revert in_run word. induction s as [|c s IH]; intros in_run word Hrun; simpl; [done|].
  destruct (isspace c) eqn:Hc.
  - destruct in_run.
    + rewrite (Hrun eq_refl). by apply IH.
    + simpl. destruct word; by rewrite IH.
  - simpl. rewrite Hc. apply IH. discriminate.
Qed.

Lemma words_lstrip s : words_from "" (lstrip s) = words_from "" s.
Proof.
  induction s as [|c s IH]; simpl; [done|].
  destruct (isspace c) eqn:Hc; [done|]. simpl. by rewrite Hc.
Qed.

Lemma words_from_rstrip s word : words_from word (rstrip s) = words_from word s.
Proof.
  revert word. induction s as [|c s IH]; intros word; simpl; [done|].
  destruct (rstrip s) as [|k kept] eqn:Hk.
  - destruct (isspace c) eqn:Hc; simpl.
    + rewrite <- IH. simpl. by destruct word.
    + rewrite Hc, <- IH. done.
  - simpl. destruct (isspace c); by rewrite <- !IH.
Qed.

Lemma clean_words s : words (_clean_bibitem_text s) = words s.
Proof.
  unfold words, _clean_bibitem_text, strip.
  rewrite words_from_rstrip, words_lstrip. by apply words_from_sub.
Qed.

Lemma clean_empty : _clean_bibitem_text "" = "".
Proof. reflexivity. Qed.
End TextFacts.

Section BreakFacts.
Import ScrapeTex Views.

Lemma lazy_whitespace_newline_spec s :
  lazy_whitespace_newline s = true
  ↔ ∃ ws after, s = ws +:+ String newline after ∧ all_chars isspace ws = true.
Proof.
  split.
  - induction s as [|c s IH]; simpl; [done|].
    destruct (Ascii.eqb c newline) eqn:Hc.
    + apply Ascii.eqb_eq in Hc as ->. intros _. by exists "", s.
    + intros [Hsp Hrest]%andb_true_iff.
      destruct (IH Hrest) as (ws & after & -> & Hws).
      exists (String c ws), after. simpl. by rewrite Hsp, Hws.
  - intros (ws & after & -> & Hws). induction ws as [|c ws IH]; simpl.
    + done.
    + simpl in Hws. apply andb_true_iff in Hws as [Hc Hws].
      destruct (Ascii.eqb c newline); [done|]. by rewrite Hc, IH.
Qed.

Lemma break_at_empty k : ¬ break_at "" k.
Proof. intros (before & ws & after & Heq & _). by destruct before. Qed.

Lemma break_at_0 c s :
  break_at (String c s) 0 ↔ c = newline ∧ lazy_whitespace_newline s = true.
Proof.
  rewrite lazy_whitespace_newline_spec. split.
  - intros (before & ws & after & Heq & Hlen & Hws).
    destruct before; [|done]. simpl in Heq. injection Heq as -> ->. eauto.
  - intros (-> & ws & after & -> & Hws). by exists "", ws, after.
Qed.

Lemma break_at_S c s k : break_at (String c s) (S k) ↔ break_at s k.
Proof.
  split.
  - intros (before & ws & after & Heq & Hlen & Hws).
    destruct before as [|b before]; [done|]. simpl in *.
    injection Heq as -> ->. injection Hlen as Hlen. by exists before, ws, after.
  - intros (before & ws & after & -> & Hlen & Hws).
    exists (String c before), ws, after. simpl. by rewrite Hlen.
Qed.

(** [re.search] finds the first place at which the pattern matches. *)
Lemma search_TEX_BREAK_first s k : search_TEX_BREAK s = Some k → first_break_at s k.
Proof.
  revert k. induction s as [|c s IH]; intros k; simpl; [done|].
  destruct (Ascii.eqb c newline && lazy_whitespace_newline s) eqn:Hhere.
  - intros [= <-]. split; [|lia].
    apply andb_true_iff in Hhere as [Hc%Ascii.eqb_eq Hs]. by apply break_at_0.
  - destruct (search_TEX_BREAK s) as [k'|]; [|done]. simpl. intros [= <-].
    destruct (IH k' eq_refl) as [Hat Hbefore]. split.
    + by apply break_at_S.
    + intros [|j] Hj.
      * rewrite break_at_0. intros [Hc Hs].
        apply Ascii.eqb_eq in Hc. by rewrite Hc, Hs in Hhere.
      * rewrite break_at_S. apply Hbefore. lia.
Qed.

Lemma search_TEX_BREAK_none s k : search_TEX_BREAK s = None → ¬ break_at s k.
Proof.
  revert k. induction s as [|c s IH]; intros k; simpl.
  - intros _. apply break_at_empty.
  - destruct (Ascii.eqb c newline && lazy_whitespace_newline s) eqn:Hhere; [done|].
    destruct (search_TEX_BREAK s) as [k'|] eqn:Hs; [done|]. intros _.
    destruct k as [|k].
    + rewrite break_at_0. intros [Hc Hl].
      apply Ascii.eqb_eq in Hc. by rewrite Hc, Hl in Hhere.
    + rewrite break_at_S. by apply IH.
Qed.

Lemma contains_break_spec s : _contains_break s = true ↔ ∃ k, break_at s k.
Proof.
  unfold _contains_break. destruct (search_TEX_BREAK s) as [k|] eqn:Hs.
  - split; [|done]. intros _. exists k. by apply search_TEX_BREAK_first.
  - split; [done|]. intros [k Hk]. by apply search_TEX_BREAK_none in Hk.
Qed.

Lemma substring_prefix before rest :
  substring 0 (String.length before) (before +:+ rest) = before.
Proof.
  induction before as [|c before IH]; simpl.
  - by destruct rest.
  - by rewrite IH.
Qed.

(** What [_get_text_before_break] returns lies in front of the first
    break, and a break follows it. *)
Lemma text_before_break_spec s :
  _contains_break s = true →
  ∃ ws after,
    s = _get_text_before_break s +:+ String newline (ws +:+ String newline after)
    ∧ all_chars isspace ws = true
    ∧ first_break_at s (String.length (_get_text_before_break s)).
Proof.
  unfold _contains_break, _get_text_before_break.
  destruct (search_TEX_BREAK s) as [k|] eqn:Hs; [|done]. intros _.
  destruct (search_TEX_BREAK_first s k Hs) as [Hat Hfirst].
  destruct Hat as (before & ws & after & -> & <- & Hws).
  rewrite substring_prefix. exists ws, after. split; [done|]. split; [done|].
  split; [|done]. by exists before, ws, after.
Qed.
End BreakFacts.

(** ** The state machine of [_process_content] *)

Section MachineFacts.
Import ScrapeTex Views.
Implicit Types (self : BibitemExtractor) (c : Content) (cs : list Content).

Lemma set_label_same self :
  set_label self (current_bibitem_label self) = self.
Proof. by destruct self. Qed.

Lemma finalize_closed self :
  current_bibitem_label self = None → bibitem_text self = "" →
  _finalize_bibitem self = self.
Proof. destruct self as [label text scanned items]. simpl. by intros -> ->. Qed.

Lemma invariant_init : label_invariant BibitemExtractor__init__.
Proof. done. Qed.

Lemma invariant_finalize self : label_invariant (_finalize_bibitem self).
Proof. done. Qed.

Lemma invariant_process self c :
  label_invariant self → label_invariant (_process_content self c).
Proof.
  unfold label_invariant, _process_content. intros Hinv.
  destruct (bibitem_cmd c) as [args|].
  - destruct (current_bibitem_label self) eqn:Hl; simpl; auto.
  - destruct (current_bibitem_label self) eqn:Hl; [|by rewrite Hl].
    destruct (content_text c) as [t|]; [|by rewrite Hl].
    destruct (_contains_break t); simpl; [done|]. by rewrite Hl.
Qed.

Lemma invariant_scan self cs :
  label_invariant self → label_invariant (foldl _process_content self cs).
Proof.
  revert self. induction cs as [|c cs IH]; intros self Hinv; simpl; [done|].
  by apply IH, invariant_process.
Qed.

(** A marker closes the open item, if any, and installs its own label. *)
Lemma process_marker self c args :
  label_invariant self → bibitem_cmd c = Some args →
  _process_content self c = set_label (_finalize_bibitem self) (_extract_label args).
Proof.
  intros Hinv Hc. unfold _process_content. rewrite Hc.
  destruct (current_bibitem_label self) eqn:Hl; [done|].
  rewrite finalize_closed; auto.
Qed.

(** Without a label nothing but a labelled marker changes the state. *)
Lemma process_unlabelled self c :
  current_bibitem_label self = None → marker_label c = None →
  _process_content self c = self.
Proof.
  intros Hl Hc. unfold _process_content, marker_label in *.
  destruct (bibitem_cmd c) as [args|]; simpl in Hc.
  - rewrite Hl, Hc, <- Hl. apply set_label_same.
  - by rewrite Hl.
Qed.

Lemma scan_unlabelled self cs :
  current_bibitem_label self = None → Forall (fun c => marker_label c = None) cs →
  foldl _process_content self cs = self.
Proof.
  intros Hl Hcs. induction Hcs as [|c cs Hc _ IH]; simpl; [done|].
  by rewrite process_unlabelled.
Qed.


(** Items are only ever appended. *)
Lemma process_appends self c :
  ∃ more, bibitems (_process_content self c) = bibitems self ++ more.
Proof.
  unfold _process_content. destruct (bibitem_cmd c) as [args|].
  - destruct (current_bibitem_label self) eqn:Hl; simpl.
    + rewrite Hl. eauto.
    + exists []. by rewrite app_nil_r.
  - destruct (current_bibitem_label self) eqn:Hl;
      [|exists []; by rewrite app_nil_r].
    destruct (content_text c) as [t|]; [|exists []; by rewrite app_nil_r].
    destruct (_contains_break t); simpl.
    + rewrite Hl. eauto.
    + exists []. by rewrite app_nil_r.
Qed.

Lemma scan_appends self cs :
  ∃ more, bibitems (foldl _process_content self cs) = bibitems self ++ more.
Proof.
  revert self. induction cs as [|c cs IH]; intros self; simpl.
  - exists []. by rewrite app_nil_r.
  - destruct (IH (_process_content self c)) as [more2 ->].
    destruct (process_appends self c) as [more1 ->].
    exists (more1 ++ more2). by rewrite app_assoc.
Qed.

Lemma finalize_appends self :
  ∃ more, bibitems (_finalize_bibitem self) = bibitems self ++ more.
Proof.
  simpl. destruct (current_bibitem_label self); eauto.
  exists []. by rewrite app_nil_r.
Qed.

Lemma extract_label_first_required opt value rest :
  Forall (fun a => ∀ v, a ≠ RArg v) opt →
  _extract_label (opt ++ RArg value :: rest) = Some value.
Proof.
  induction 1 as [|a opt Ha _ IH]; simpl; [done|].
  destruct a as [v|v]; [by destruct (Ha v)|]. exact IH.
Qed.

Lemma extract_label_none args :
  Forall (fun a => ∀ v, a ≠ RArg v) args ↔ _extract_label args = None.
Proof.
  split.
  - induction 1 as [|a opt Ha _ IH]; simpl; [done|].
    destruct a as [v|v]; [by destruct (Ha v)|]. exact IH.
  - induction args as [|a args IH]; simpl; [constructor|].
    destruct a as [v|v]; [done|]. intros Hrest. constructor; [done|]. by apply IH.
Qed.
End MachineFacts.

(** ** Claims about the state machine *)

Section MachineClaims.
Import ScrapeTex Views.
Implicit Types (self : BibitemExtractor) (c : Content) (cs : list Content).

(** C8: at a marker node the new label is the value of the first
    required argument of the command, whatever optional arguments precede
    it; a command without a required argument leaves the label absent. *)
Theorem marker_label_is_first_required_argument self c args :
  bibitem_cmd c = Some args →
  current_bibitem_label (_process_content self c) = _extract_label args
  ∧ (∀ opt value rest,
       args = opt ++ RArg value :: rest → (∀ v, RArg v ∉ opt) →
       current_bibitem_label (_process_content self c) = Some value)
  ∧ ((∀ v, RArg v ∉ args) →
     current_bibitem_label (_process_content self c) = None).
Proof.
  intros Hc.
  assert (current_bibitem_label (_process_content self c) = _extract_label args)
    as Hlabel.
  { unfold _process_content. rewrite Hc.
    by destruct (current_bibitem_label self). }
  split; [exact Hlabel|]. rewrite Hlabel. split.
  - intros opt value rest -> Hopt. apply extract_label_first_required.
    apply Forall_forall. intros a Ha v ->. by apply (Hopt v).
  - intros Hnone. apply extract_label_none.
    apply Forall_forall. intros a Ha v ->. by apply (Hnone v).
Qed.

(** C4: a marker without a label leaves the label absent and adds no item
    of its own (the only item it can add is the one it closes); whatever
    follows it, up to the next marker with a label, changes nothing: the
    buffer stays empty and the scan continues as if that content were not
    there. *)
Theorem unlabelled_marker_drops_text self c args cs rest :
  label_invariant self →
  bibitem_cmd c = Some args →
  _extract_label args = None →
  Forall (fun c' => marker_label c' = None) cs →
  _process_content self c = _finalize_bibitem self
  ∧ foldl _process_content self (c :: cs) = _finalize_bibitem self
  ∧ current_bibitem_label (foldl _process_content self (c :: cs)) = None
  ∧ bibitem_text (foldl _process_content self (c :: cs)) = ""
  ∧ bibitems (foldl _process_content self (c :: cs))
    = bibitems self
      ++ match current_bibitem_label self with
         | Some previous =>
             [{| key := previous; text := _clean_bibitem_text (bibitem_text self) |}]
         | None => []
         end
  ∧ foldl _process_content self (c :: cs ++ rest)
    = foldl _process_content (_finalize_bibitem self) rest.
Proof.
  intros Hinv Hc Hlabel Hcs.
  assert (_process_content self c = _finalize_bibitem self) as Hm.
  { rewrite (process_marker self c args Hinv Hc), Hlabel.
    apply (set_label_same (_finalize_bibitem self)). }
  assert (foldl _process_content self (c :: cs) = _finalize_bibitem self) as Hscan.
  { simpl. rewrite Hm. by apply scan_unlabelled. }
  split; [exact Hm|]. split; [exact Hscan|].
  rewrite Hscan. split; [done|]. split; [done|]. split.
  - simpl. destruct (current_bibitem_label self); [done|]. by rewrite app_nil_r.
  - change (c :: cs ++ rest) with ((c :: cs) ++ rest). by rewrite foldl_app, Hscan.
Qed.

(** C3, amended: when text [t] arrives under a label and contains a
    paragraph break (a newline, then whitespace of any kind, then a
    newline), [t] splits at its first break; only the part in front of the
    break joins the buffer, the item is emitted at once and the label and
    buffer are cleared; the rest of [t] and all content up to the next
    labelled marker leave no trace in the state. *)
Theorem break_closes_item self label c t cs rest :
  current_bibitem_label self = Some label →
  bibitem_cmd c = None →
  content_text c = Some t →
  _contains_break t = true →
  Forall (fun c' => marker_label c' = None) cs →
  let closed :=
    {| current_bibitem_label := None;
       bibitem_text := "";
       nodes_scanned := nodes_scanned self;
       bibitems :=
         bibitems self
         ++ [{| key := label;
                text := _clean_bibitem_text
                          (bibitem_text self +:+ _get_text_before_break t) |}] |} in
  (∃ ws after,
     t = _get_text_before_break t +:+ String newline (ws +:+ String newline after)
     ∧ all_chars isspace ws = true
     ∧ first_break_at t (String.length (_get_text_before_break t)))
  ∧ _process_content self c = closed
  ∧ foldl _process_content self (c :: cs) = closed
  ∧ foldl _process_content self (c :: cs ++ rest) = foldl _process_content closed rest.
Proof.
  intros Hl Hc Ht Hbreak Hcs closed.
  assert (_process_content self c = closed) as Hstep.
  { unfold _process_content. rewrite Hc, Hl, Ht, Hbreak.
    unfold _finalize_bibitem, closed. simpl. by rewrite Hl. }
  assert (foldl _process_content self (c :: cs) = closed) as Hscan.
  { simpl. rewrite Hstep. by apply scan_unlabelled. }
  split; [by apply text_before_break_spec|].
  split; [exact Hstep|]. split; [exact Hscan|].
  change (c :: cs ++ rest) with ((c :: cs) ++ rest). by rewrite foldl_app, Hscan.
Qed.

End MachineClaims.

(** ** The scan of [extract] *)

Section ScanFacts.
Import ScrapeTex Views.
Implicit Types (self : BibitemExtractor) (c : Content) (cs : list Content).
Implicit Types (found : list Descendant) (seen : list (list nat)).

Lemma set_scanned_twice self X Y : set_scanned (set_scanned self X) Y = set_scanned self Y.
Proof. done. Qed.

Lemma set_scanned_same self : set_scanned self (nodes_scanned self) = self.
Proof. by destruct self. Qed.

Lemma add_scanned_set self n :
  add_scanned self n = set_scanned self ({[n]} ∪ nodes_scanned self).
Proof. done. Qed.

Lemma process_set_scanned self X c :
  _process_content (set_scanned self X) c = set_scanned (_process_content self c) X.
Proof.
  unfold _process_content. simpl.
  destruct (bibitem_cmd c) as [args|].
  - by destruct (current_bibitem_label self).
  - destruct (current_bibitem_label self); [|done].
    destruct (content_text c) as [t|]; [|done].
    by destruct (_contains_break t).
Qed.

Lemma scan_set_scanned self X cs :
  foldl _process_content (set_scanned self X) cs
  = set_scanned (foldl _process_content self cs) X.
Proof.
  revert self. induction cs as [|c cs IH]; intros self; simpl; [done|].
  by rewrite process_set_scanned, IH.
Qed.

Lemma scan_nodes_scanned self cs :
  nodes_scanned (foldl _process_content self cs) = nodes_scanned self.
Proof.
  rewrite <- (set_scanned_same self) at 1. by rewrite scan_set_scanned.
Qed.

(** The loop over the found nodes processes the content of the parents in
    [parents_to_scan], one after the other; which tree number the object
    names carry makes no difference. *)
Lemma scan_parents_stream soup_id found self seen :
  (∀ p, (soup_id, p) ∈ nodes_scanned self ↔ p ∈ seen) →
  ∃ X, foldl (scan_parent soup_id) self found
       = set_scanned
           (foldl _process_content self
              (parents_to_scan seen found ≫= (fun d => contents_of (parent d))))
           X.
Proof.
  revert self seen. induction found as [|d found IH]; intros self seen Hseen; simpl.
  - exists (nodes_scanned self). by rewrite set_scanned_same.
  - unfold scan_parent at 2.
    destruct (decide (parent_path d ∈ seen)) as [Hin|Hnot].
    + rewrite decide_False by (intros Hn; by apply Hn, Hseen).
      by apply IH.
    + rewrite decide_True by (by rewrite Hseen).
      rewrite add_scanned_set, scan_set_scanned.
      destruct (IH (set_scanned (foldl _process_content self
                                   (contents_of (parent d)))
                       ({[(soup_id, parent_path d)]} ∪ nodes_scanned self))
                   (parent_path d :: seen)) as [X HX].
      { intros p. simpl.
        rewrite elem_of_union, elem_of_singleton, elem_of_cons, Hseen.
        split; intros [Hp|Hp]; auto; left; congruence. }
      exists X. etransitivity; [exact HX|]. simpl.
      by rewrite foldl_app, scan_set_scanned, set_scanned_twice.
Qed.

Lemma reset_set_scanned self :
  current_bibitem_label self = None → bibitem_text self = "" →
  reset_bibitems self = set_scanned BibitemExtractor__init__ (nodes_scanned self).
Proof. destruct self. simpl. by intros -> ->. Qed.

Variable TexSoup : string → PyResult TexSoupExc Content.
Variable find_all : Content → string → list Descendant.

(** The outcome of [extract] on an extractor that holds no label, no text
    and no object of the tree about to be allocated. *)
Lemma extract_outcome self tex heap :
  current_bibitem_label self = None → bibitem_text self = "" →
  (∀ p, (heap, p) ∉ nodes_scanned self) →
  (extract TexSoup find_all self tex heap).1.1
  = match parse_tex TexSoup tex with
    | Returned soup => Returned (items_of_stream (scan_stream (find_all soup "bibitem")))
    | Raised e => Raised e
    end.
Proof.
  intros Hl Ht Hfresh. unfold extract.
  destruct (parse_tex TexSoup tex) as [soup|e]; [|done]. simpl.
  destruct (scan_parents_stream heap (find_all soup "bibitem")
              (reset_bibitems self) []) as [X ->].
  { intros p. simpl. split; [by intros ?%Hfresh|by intros ?%elem_of_nil]. }
  rewrite reset_set_scanned, scan_set_scanned by done. reflexivity.
Qed.

Lemma extract_bibitems_outcome tex heap :
  (extract_bibitems TexSoup find_all tex heap).1
  = match parse_tex TexSoup tex with
    | Returned soup => Returned (items_of_stream (scan_stream (find_all soup "bibitem")))
    | Raised e => Raised e
    end.
Proof.
  unfold extract_bibitems.
  pose proof (extract_outcome BibitemExtractor__init__ tex heap eq_refl eq_refl) as H.
  destruct (extract TexSoup find_all BibitemExtractor__init__ tex heap) as [[r self'] heap'].
  simpl in *. apply H. intros p. apply not_elem_of_empty.
Qed.

(** What [extract] leaves in the extractor object and in the heap. *)
Lemma extract_leaves self tex heap :
  current_bibitem_label self = None → bibitem_text self = "" →
  (∀ h p, (h, p) ∈ nodes_scanned self → h < heap) →
  let '(_, self', heap') := extract TexSoup find_all self tex heap in
  current_bibitem_label self' = None ∧ bibitem_text self' = ""
  ∧ (heap ≤ heap')%nat ∧ (∀ h p, (h, p) ∈ nodes_scanned self' → (h < heap')%nat).
Proof.
  intros Hl Ht Hold. unfold extract.
  destruct (parse_tex TexSoup tex) as [soup|e].
  - simpl. split; [done|]. split; [done|]. split; [lia|].
    generalize (find_all soup "bibitem"). intros found.
    assert (∀ h p, (h, p) ∈ nodes_scanned (reset_bibitems self) → h < S heap) as Hinv.
    { intros h p Hp. apply Hold in Hp. lia. }
    revert Hinv. generalize (reset_bibitems self). clear.
    induction found as [|d found IH]; intros self Hinv; simpl; [exact Hinv|].
    apply IH. unfold scan_parent. case_decide; [|exact Hinv].
    intros h p. rewrite scan_nodes_scanned. simpl.
    rewrite elem_of_union, elem_of_singleton. intros [[= -> _]|Hp]; [lia|].
    by apply (Hinv h p).
  - simpl. split; [done|]. split; [done|]. split; [lia|]. exact Hold.
Qed.
End ScanFacts.

(** ** The shape of [descendants] *)

Section TreeFacts.
Import ScrapeTex Views.
Implicit Types (c self : Content) (path : list nat) (d x : Descendant).

Lemma Content_nested_ind (P : Content → Prop) :
  (∀ e s cs, Forall P cs → P (TexNode e s cs)) →
  (∀ t, P (TokenWithPosition t)) →
  (∀ r, P (OtherItem r)) →
  ∀ c, P c.
Proof.
  intros Hnode Htoken Hother. fix IH 1.
  intros [e s cs|t|r]; [|apply Htoken|apply Hother].
  apply Hnode. induction cs as [|c cs IHcs]; constructor; [apply IH|apply IHcs].
Qed.

Lemma descendants_unfold path e s cs :
  descendants path (TexNode e s cs) = children_from path (TexNode e s cs) 0 cs.
Proof.
  simpl. generalize (TexNode e s cs). intros self. generalize 0.
  induction cs as [|c cs IH]; intros i; simpl; [done|].
  by rewrite IH.
Qed.

Lemma descendants_below c path x :
  x ∈ descendants path c → ∃ suffix, parent_path x = path ++ suffix.
Proof.
  revert path. induction c as [e s cs IH|t|r] using Content_nested_ind;
    intros path; [|by intros ?%elem_of_nil..].
  rewrite descendants_unfold. generalize (TexNode e s cs) as self. generalize 0.
  induction IH as [|c cs Hc _ IHcs]; intros i self; simpl;
    [by intros ?%elem_of_nil|].
  rewrite elem_of_cons, elem_of_app. intros [->|[Hx|Hx]].
  - exists []. by rewrite app_nil_r.
  - destruct (Hc _ Hx) as [suffix ->]. exists (i :: suffix).
    by rewrite <- app_assoc.
  - by apply (IHcs (S i) self).
Qed.

Lemma children_from_below path self i rest x :
  x ∈ children_from path self i rest →
  (parent_path x = path ∧ parent x = self)
  ∨ ∃ j suffix, (i ≤ j)%nat ∧ parent_path x = path ++ j :: suffix.
Proof.
  revert i. induction rest as [|c rest IH]; intros i; simpl;
    [by intros ?%elem_of_nil|].
  rewrite elem_of_cons, elem_of_app. intros [->|[Hx|Hx]].
  - by left.
  - right. destruct (descendants_below _ _ _ Hx) as [suffix ->].
    exists i, suffix. split; [lia|]. by rewrite <- app_assoc.
  - destruct (IH (S i) Hx) as [?|(j & suffix & Hj & ->)]; [by left|].
    right. exists j, suffix. split; [lia|done].
Qed.

Lemma path_not_extended path j suffix : path ++ j :: suffix ≠ path.
Proof.
  intros Heq. apply (f_equal length) in Heq.
  rewrite length_app in Heq. simpl in Heq. lia.
Qed.

Lemma filter_none {A} (P : A → Prop) `{∀ a, Decision (P a)} (l : list A) :
  (∀ a, a ∈ l → ¬ P a) → filter P l = [].
Proof.
  induction l as [|a l IH]; intros Hl; [done|].
  rewrite filter_cons_False by (apply Hl; by left).
  apply IH. intros b Hb. apply Hl. by right.
Qed.

(** The descendants whose parent is [self] are its children, in order. *)
Lemma children_of_self path self i rest :
  filter (fun x => parent_path x = path) (children_from path self i rest)
  = direct_from path self i rest.
Proof.
  revert i. induction rest as [|c rest IH]; intros i; simpl; [done|].
  rewrite filter_cons_True by done. rewrite filter_app, IH. f_equal.
  rewrite filter_none; [done|].
  intros x Hx Heq. destruct (descendants_below _ _ _ Hx) as [suffix Hs].
  rewrite Heq, <- app_assoc in Hs. by apply eq_sym, path_not_extended in Hs.
Qed.

Lemma children_of_deeper path self rest :
  Forall grouped_below rest →
  ∀ i d, d ∈ children_from path self i rest → parent_path d ≠ path →
    filter (fun x => parent_path x = parent_path d) (children_from path self i rest)
    = direct_from (parent_path d) (parent d) 0 (contents_of (parent d)).
Proof.
  induction 1 as [|c rest Hc _ IH]; intros i d; simpl; [by intros ?%elem_of_nil|].
  rewrite elem_of_cons, elem_of_app. intros [->|[Hd|Hd]] Hne; [done| |].
  - rewrite filter_cons_False by (simpl; congruence).
    rewrite filter_app, (Hc _ _ Hd), filter_none; [by rewrite app_nil_r|].
    intros x Hx Heq.
    destruct (descendants_below _ _ _ Hd) as [suffix Hs].
    rewrite <- app_assoc in Hs. simpl in Hs.
    destruct (children_from_below _ _ _ _ _ Hx) as [[Hp _]|(j & sfx & Hj & Hp)].
    + rewrite Heq, Hs in Hp. by apply path_not_extended in Hp.
    + rewrite Heq, Hs in Hp. apply app_inv_head in Hp. injection Hp as -> _. lia.
  - rewrite filter_cons_False by (simpl; congruence).
    rewrite filter_app, (IH _ _ Hd Hne), filter_none; [done|].
    intros x Hx Heq.
    destruct (descendants_below _ _ _ Hx) as [suffix Hs].
    rewrite <- app_assoc in Hs. simpl in Hs.
    destruct (children_from_below _ _ _ _ _ Hd) as [[Hp _]|(j & sfx & Hj & Hp)];
      [done|].
    rewrite <- Heq, Hs in Hp. apply app_inv_head in Hp. injection Hp as -> _. lia.
Qed.

(** The descendants that share the parent of [d] are exactly the
    children of that parent, in document order. *)
Lemma descendants_grouped c : grouped_below c.
Proof.
  induction c as [e s cs IH|t|r] using Content_nested_ind;
    intros path d; [|by intros ?%elem_of_nil..].
  rewrite descendants_unfold. intros Hd.
  destruct (decide (parent_path d = path)) as [Heq|Hne].
  - destruct (children_from_below _ _ _ _ _ Hd) as [[_ ->]|(j & sfx & _ & Hp)].
    + rewrite Heq. apply children_of_self.
    + rewrite Heq in Hp. by apply eq_sym, path_not_extended in Hp.
  - by apply children_of_deeper.
Qed.

Lemma direct_from_nodes path self i rest :
  node <$> direct_from path self i rest = rest.
Proof.
  revert i. induction rest as [|c rest IH]; intros i; simpl; [done|].
  by rewrite IH.
Qed.

(** *** The shape of [children_first] *)

Lemma children_first_unfold path e s cs :
  children_first path (TexNode e s cs)
  = direct_from path (TexNode e s cs) 0 cs ++ below_from path 0 cs.
Proof.
  simpl. generalize (TexNode e s cs). intros self. f_equal.
  - generalize 0. induction cs as [|c cs IH]; intros i; simpl; [done|].
    by rewrite IH.
  - generalize 0. induction cs as [|c cs IH]; intros i; simpl; [done|].
    by rewrite IH.
Qed.

Lemma direct_from_parent path self i rest x :
  x ∈ direct_from path self i rest → parent_path x = path ∧ parent x = self.
Proof.
  revert i. induction rest as [|c rest IH]; intros i; simpl;
    [by intros ?%elem_of_nil|].
  intros [->|Hx]%elem_of_cons; [done|]. by apply (IH (S i)).
Qed.

Lemma children_first_below c path x :
  x ∈ children_first path c → ∃ suffix, parent_path x = path ++ suffix.
Proof.
  revert path. induction c as [e s cs IH|t|r] using Content_nested_ind;
    intros path; [|by intros ?%elem_of_nil..].
  rewrite children_first_unfold, elem_of_app. intros [Hx|Hx].
  - apply direct_from_parent in Hx as [-> _]. exists []. by rewrite app_nil_r.
  - revert Hx. generalize 0.
    induction IH as [|c cs Hc _ IHcs]; intros i; simpl; [by intros ?%elem_of_nil|].
    rewrite elem_of_app. intros [Hx|Hx]; [|by apply (IHcs (S i))].
    destruct (Hc _ Hx) as [suffix ->]. exists (i :: suffix).
    by rewrite <- app_assoc.
Qed.

Lemma below_from_below path i rest x :
  x ∈ below_from path i rest →
  ∃ j suffix, (i ≤ j)%nat ∧ parent_path x = path ++ j :: suffix.
Proof.
  revert i. induction rest as [|c rest IH]; intros i; simpl;
    [by intros ?%elem_of_nil|].
  rewrite elem_of_app. intros [Hx|Hx].
  - destruct (children_first_below _ _ _ Hx) as [suffix ->].
    exists i, suffix. split; [lia|]. by rewrite <- app_assoc.
  - destruct (IH (S i) Hx) as (j & suffix & Hj & ->).
    exists j, suffix. split; [lia|done].
Qed.

Lemma filter_every {A} (P : A → Prop) `{∀ a, Decision (P a)} (l : list A) :
  (∀ a, a ∈ l → P a) → filter P l = l.
Proof.
  induction l as [|a l IH]; intros Hl; [done|].
  rewrite filter_cons_True by (apply Hl; by left).
  f_equal. apply IH. intros b Hb. apply Hl. by right.
Qed.

Lemma below_of_deeper path rest :
  Forall grouped_children_first rest →
  ∀ i d, d ∈ below_from path i rest →
    filter (fun x => parent_path x = parent_path d) (below_from path i rest)
    = direct_from (parent_path d) (parent d) 0 (contents_of (parent d)).
Proof.
  induction 1 as [|c rest Hc _ IH]; intros i d; simpl; [by intros ?%elem_of_nil|].
  rewrite elem_of_app. intros [Hd|Hd].
  - rewrite filter_app, (Hc _ _ Hd), filter_none; [by rewrite app_nil_r|].
    intros x Hx Heq.
    destruct (children_first_below _ _ _ Hd) as [suffix Hs].
    rewrite <- app_assoc in Hs. simpl in Hs.
    destruct (below_from_below _ _ _ _ Hx) as (j & sfx & Hj & Hp).
    rewrite Heq, Hs in Hp. apply app_inv_head in Hp. injection Hp as -> _. lia.
  - rewrite filter_app, (IH _ _ Hd), filter_none; [done|].
    intros x Hx Heq.
    destruct (children_first_below _ _ _ Hx) as [suffix Hs].
    rewrite <- app_assoc in Hs. simpl in Hs.
    destruct (below_from_below _ _ _ _ Hd) as (j & sfx & Hj & Hp).
    rewrite <- Heq, Hs in Hp. apply app_inv_head in Hp. injection Hp as -> _. lia.
Qed.

(** The found nodes that share the parent of [d] are exactly the children
    of that parent, in the order of its contents. *)
Lemma children_first_grouped c : grouped_children_first c.
Proof.
  induction c as [e s cs IH|t|r] using Content_nested_ind;
    intros path d; [|by intros ?%elem_of_nil..].
  rewrite children_first_unfold, elem_of_app, filter_app. intros [Hd|Hd].
  - destruct (direct_from_parent _ _ _ _ _ Hd) as [-> ->].
    rewrite filter_every, filter_none; [by rewrite app_nil_r| |].
    + intros x Hx Heq. destruct (below_from_below _ _ _ _ Hx) as (j & sfx & _ & Hp).
      rewrite Heq in Hp. by apply eq_sym, path_not_extended in Hp.
    + intros x Hx. by apply direct_from_parent in Hx as [-> _].
  - rewrite filter_none, (below_of_deeper _ _ IH _ _ Hd); [done|].
    intros x Hx Heq. apply direct_from_parent in Hx as [Hx _].
    destruct (below_from_below _ _ _ _ Hd) as (j & sfx & _ & Hp).
    rewrite <- Heq, Hx in Hp. by apply eq_sym, path_not_extended in Hp.
Qed.

(** *** The parent of a node of the tree is the root or a node of the tree *)

Lemma descendants_parent c path x :
  x ∈ descendants path c → parent x = c ∨ parent x ∈ node <$> descendants path c.
Proof.
  revert path x. induction c as [e s cs IH|t|r] using Content_nested_ind;
    intros path x; [|by intros ?%elem_of_nil..].
  rewrite descendants_unfold. generalize (TexNode e s cs) as self. generalize 0.
  induction IH as [|c cs Hc _ IHcs]; intros i self; simpl;
    [by intros ?%elem_of_nil|].
  rewrite fmap_app, elem_of_cons, elem_of_app. intros [->|[Hx|Hx]]; [by left| |].
  - right. destruct (Hc _ _ Hx) as [->|Hin]; [by left|].
    right. apply elem_of_app. by left.
  - destruct (IHcs (S i) self Hx) as [?|Hin]; [by left|].
    right. right. apply elem_of_app. by right.
Qed.

Lemma children_first_parent c path x :
  x ∈ children_first path c →
  parent x = c ∨ parent x ∈ node <$> descendants path c.
Proof.
  revert path x. induction c as [e s cs IH|t|r] using Content_nested_ind;
    intros path x; [|by intros ?%elem_of_nil..].
  rewrite children_first_unfold, descendants_unfold, elem_of_app. intros [Hx|Hx].
  - left. by apply direct_from_parent in Hx as [_ ->].
  - right. revert Hx. generalize (TexNode e s cs) as self. generalize 0.
    induction IH as [|c cs Hc _ IHcs]; intros i self; simpl;
      [by intros ?%elem_of_nil|].
    rewrite fmap_app, elem_of_app. intros [Hx|Hx].
    + destruct (Hc _ _ Hx) as [->|Hin]; [by left|].
      right. apply elem_of_app. by left.
    + right. apply elem_of_app. right. by apply (IHcs (S i) self).
Qed.
End TreeFacts.

(** ** The order of the scan and the order of the document *)

Section OrderFacts.
Import ScrapeTex Views.
Implicit Types (c : Content) (d x : Descendant) (found : list Descendant).
Implicit Types (seen keys : list (list nat)).

Lemma parents_to_scan_found seen found d :
  d ∈ parents_to_scan seen found → d ∈ found.
Proof.
  revert seen. induction found as [|x found IH]; intros seen; simpl; [done|].
  case_decide.
  - intros Hd. right. by apply (IH seen).
  - rewrite elem_of_cons. intros [->|Hd]; [by left|]. right. by apply (IH _ Hd).
Qed.

Lemma parents_to_scan_fresh seen found d :
  d ∈ parents_to_scan seen found → parent_path d ∉ seen.
Proof.
  revert seen. induction found as [|x found IH]; intros seen; simpl;
    [by intros ?%elem_of_nil|].
  case_decide.
  - apply IH.
  - rewrite elem_of_cons. intros [->|Hd]; [done|].
    apply IH in Hd. intros Hin. apply Hd. by right.
Qed.

Lemma parents_to_scan_NoDup seen found :
  NoDup (parent_path <$> parents_to_scan seen found).
Proof.
  revert seen. induction found as [|x found IH]; intros seen; simpl;
    [constructor|].
  case_decide; [apply IH|]. simpl. constructor; [|apply IH].
  intros (d & Heq & Hd)%list_elem_of_fmap.
  apply parents_to_scan_fresh in Hd. apply Hd. rewrite <- Heq. by left.
Qed.

Lemma parents_to_scan_covers seen found x :
  x ∈ found →
  parent_path x ∈ seen ∨ parent_path x ∈ parent_path <$> parents_to_scan seen found.
Proof.
  revert seen. induction found as [|y found IH]; intros seen; simpl;
    [by intros ?%elem_of_nil|].
  rewrite elem_of_cons. intros [->|Hx].
  - case_decide; [by left|]. right. simpl. by left.
  - case_decide; [by apply IH|].
    destruct (IH (parent_path y :: seen) Hx) as [Hin|Hin].
    + apply elem_of_cons in Hin as [->|Hin]; [|by left]. right. simpl. by left.
    + right. simpl. by right.
Qed.

(** Grouping a list by a key with no repetition among the keys only
    reorders what the list contributes. *)
Lemma bind_nil {A B} (l : list A) : l ≫= (fun _ => @nil B) = [].
Proof. induction l as [|a l IH]; simpl; [done|]. exact IH. Qed.

Lemma group_one {B} (g : list B) (q0 : list nat) (rest : list nat → list B) keys :
  NoDup keys →
  keys ≫= (fun q => (if decide (q0 = q) then g else []) ++ rest q)
  ≡ₚ (if decide (q0 ∈ keys) then g else []) ++ (keys ≫= rest).
Proof.
  induction 1 as [|q keys Hq Hkeys IH]; simpl; [done|].
  rewrite IH. destruct (decide (q0 = q)) as [->|Hne].
  - destruct (decide (q ∈ keys)) as [?|_]; [done|].
    destruct (decide (q ∈ q :: keys)) as [_|Hnot]; [|destruct Hnot; by left].
    simpl. by rewrite <- app_assoc.
  - destruct (decide (q0 ∈ keys)) as [Hin|Hnot].
    + destruct (decide (q0 ∈ q :: keys)) as [_|Hnot]; [|destruct Hnot; by right].
      simpl. rewrite !app_assoc. apply Permutation_app_tail.
      apply Permutation_app_comm.
    + destruct (decide (q0 ∈ q :: keys)) as [[?|?]%elem_of_cons|_]; done.
Qed.

Lemma group_by_parent {B} (g : Descendant → list B) (all : list Descendant) keys :
  NoDup keys →
  (∀ x, x ∈ all → g x ≠ [] → parent_path x ∈ keys) →
  all ≫= g
  ≡ₚ keys ≫= (fun q => filter (fun x => parent_path x = q) all ≫= g).
Proof.
  intros Hkeys. induction all as [|x all IH]; intros Hall; simpl.
  - by rewrite bind_nil.
  - rewrite IH by (intros y Hy; apply Hall; by right).
    transitivity
      (keys ≫= (fun q => (if decide (parent_path x = q) then g x else [])
                         ++ (filter (fun x => parent_path x = q) all ≫= g))).
    + rewrite group_one by done.
      destruct (decide (parent_path x ∈ keys)) as [Hin|Hnot]; [done|].
      destruct (g x) as [|b l] eqn:Hg; [done|].
      destruct Hnot. apply Hall; [by left|]. by rewrite Hg.
    + apply Permutation_refl'. apply list_bind_ext; [|done]. intros q.
      destruct (decide (parent_path x = q)) as [Heq|Hne].
      * by rewrite filter_cons_True.
      * by rewrite filter_cons_False.
Qed.

Lemma filter_bind_all {B} (g : Descendant → list B) (all : list Descendant) q :
  (∀ x, x ∈ all → g x ≠ [] → parent_path x = q) →
  filter (fun x => parent_path x = q) all ≫= g = all ≫= g.
Proof.
  induction all as [|x all IH]; intros Hall; [done|].
  specialize (IH (fun y Hy => Hall y (list_elem_of_further _ _ _ Hy))).
  destruct (decide (parent_path x = q)) as [Heq|Hne].
  - by rewrite filter_cons_True, !bind_cons, IH.
  - rewrite filter_cons_False, bind_cons, IH by done.
    destruct (g x) as [|b l] eqn:Hg; [done|].
    destruct Hne. apply Hall; [by left|]. by rewrite Hg.
Qed.

(** A labelled marker is found by [find_all("bibitem")]. *)
Lemma marker_is_found c label :
  marker_label c = Some label → name_matches "bibitem" c = true.
Proof.
  unfold marker_label, bibitem_cmd.
  destruct c as [[name args|name args] s cs|t|r]; simpl; try done.
  by destruct (String.eqb name "bibitem").
Qed.

Lemma marker_labels_bind (l : list Descendant) :
  marker_labels (node <$> l)
  = l ≫= (fun x => option_list (marker_label (node x))).
Proof.
  unfold marker_labels. induction l as [|x l IH]; csimpl; [done|].
  rewrite <- IH. by destruct (marker_label (node x)).
Qed.

Lemma marker_labels_app l1 l2 :
  marker_labels (l1 ++ l2) = marker_labels l1 ++ marker_labels l2.
Proof. apply omap_app. Qed.

Lemma find_all_document_order_elem soup name x :
  x ∈ find_all_document_order soup name
  ↔ x ∈ descendants [] soup ∧ name_matches name (node x) = true.
Proof.
  unfold find_all_document_order. rewrite !list_elem_of_In, filter_In. done.
Qed.

Lemma find_all_children_first_elem soup name x :
  x ∈ find_all_children_first soup name
  ↔ x ∈ children_first [] soup ∧ name_matches name (node x) = true.
Proof.
  unfold find_all_children_first. rewrite !list_elem_of_In, filter_In. done.
Qed.

(** Only [bibitem] nodes carry a label. *)
Lemma marker_labels_named cs :
  marker_labels (filter (fun c => name_matches "bibitem" c = true) cs)
  = marker_labels cs.
Proof.
  unfold marker_labels. induction cs as [|c cs IH]; [done|].
  destruct (name_matches "bibitem" c) eqn:Hc.
  - rewrite filter_cons_True by done.
    change (omap marker_label (c :: ?l))
      with (match marker_label c with
            | Some label => label :: omap marker_label l
            | None => omap marker_label l
            end).
    by rewrite IH.
  - rewrite filter_cons_False by (by rewrite Hc).
    change (omap marker_label (c :: cs))
      with (match marker_label c with
            | Some label => label :: omap marker_label cs
            | None => omap marker_label cs
            end).
    destruct (marker_label c) as [label|] eqn:Hm; [|done].
    apply marker_is_found in Hm. congruence.
Qed.

Lemma marker_labels_nil cs :
  marker_labels cs = [] ↔ ∀ c, c ∈ cs → marker_label c = None.
Proof.
  unfold marker_labels. induction cs as [|c cs IH]; simpl.
  - split; [|done]. intros _ c Hc. by apply elem_of_nil in Hc.
  - destruct (marker_label c) as [label|] eqn:Hm.
    + split; [done|]. intros Hall. specialize (Hall c (list_elem_of_here _ _)).
      congruence.
    + rewrite IH. split.
      * intros Hall c' [->|Hc']%elem_of_cons; auto.
      * intros Hall c' Hc'. apply Hall. by right.
Qed.

(** The labels met by the scan, parent by parent, when the search and
    [contents] agree. *)
Lemma scan_stream_labels found :
  search_consistent found →
  marker_labels (scan_stream found)
  = (parent_path <$> parents_to_scan [] found)
    ≫= (fun q => filter (fun x => parent_path x = q) found
                 ≫= (fun x => option_list (marker_label (node x)))).
Proof.
  intros Hcons. unfold scan_stream.
  assert (∀ d, d ∈ parents_to_scan [] found → d ∈ found) as Hsub
    by apply parents_to_scan_found.
  revert Hsub. generalize (parents_to_scan [] found).
  intros scanned. induction scanned as [|d scanned IH]; intros Hsub; csimpl; [done|].
  rewrite marker_labels_app, IH by (intros y Hy; apply Hsub; by right).
  f_equal. rewrite <- marker_labels_bind.
  rewrite <- (Hcons d) by (apply Hsub; by left). by rewrite marker_labels_named.
Qed.

(** Every labelled marker that the search finds is met exactly once. *)
Lemma scan_stream_permutation found :
  search_consistent found →
  marker_labels (scan_stream found) ≡ₚ found_labels found.
Proof.
  intros Hcons. rewrite scan_stream_labels by done.
  unfold found_labels. rewrite marker_labels_bind.
  symmetry. apply group_by_parent; [apply parents_to_scan_NoDup|].
  intros x Hx _.
  destruct (parents_to_scan_covers [] found x Hx) as [Hin|Hin]; [|done].
  by apply elem_of_nil in Hin.
Qed.

Lemma bind_all_nil {A B} (f : A → list B) (l : list A) :
  (∀ a, a ∈ l → f a = []) → l ≫= f = [].
Proof.
  induction l as [|a l IH]; intros Hl; [done|].
  rewrite bind_cons, (Hl a) by (by left). apply IH.
  intros b Hb. apply Hl. by right.
Qed.

Lemma parents_to_scan_seen seen found :
  (∀ x, x ∈ found → parent_path x ∈ seen) → parents_to_scan seen found = [].
Proof.
  induction found as [|x found IH]; intros Hseen; simpl; [done|].
  rewrite decide_True by (apply Hseen; by left).
  apply IH. intros y Hy. apply Hseen. by right.
Qed.

Lemma parents_to_scan_first d found :
  parents_to_scan [] (d :: found) = d :: parents_to_scan [parent_path d] found.
Proof.
  change (parents_to_scan [] (d :: found))
    with (if decide (parent_path d ∈ [])
          then parents_to_scan [] found
          else d :: parents_to_scan [parent_path d] found).
  by rewrite decide_False by (by intros ?%elem_of_nil).
Qed.

(** With all found nodes under one parent the scan follows the search. *)
Lemma scan_stream_single_parent found :
  search_consistent found →
  (∀ d d', d ∈ found → d' ∈ found → parent_path d = parent_path d') →
  marker_labels (scan_stream found) = found_labels found.
Proof.
  intros Hcons Hone. rewrite scan_stream_labels by done.
  unfold found_labels. rewrite marker_labels_bind. clear Hcons.
  destruct found as [|d found]; [done|].
  rewrite parents_to_scan_first, parents_to_scan_seen.
  - change (parent_path <$> [d]) with [parent_path d].
    rewrite (bind_cons _ (parent_path d) []).
    etransitivity; [apply app_nil_r|]. apply filter_bind_all.
    intros x Hx _. apply Hone; [done|by left].
  - intros x Hx. apply list_elem_of_singleton.
    apply Hone; [by right|by left].
Qed.

(** The scanned nodes are the first found nodes of their parents, in the
    order of the search. *)
Lemma parents_to_scan_sublist seen found :
  parents_to_scan seen found `sublist_of` found.
Proof.
  revert seen. induction found as [|d found IH]; intros seen; simpl; [done|].
  case_decide; [by apply sublist_cons|by apply sublist_skip].
Qed.

Lemma parents_to_scan_first_of_parent seen found earlier d later :
  parents_to_scan seen found = earlier ++ d :: later →
  first_of_parent found earlier d later.
Proof.
  revert seen earlier. induction found as [|y found IH]; intros seen earlier; simpl;
    [by destruct earlier|].
  assert (∀ seen' l, parents_to_scan seen' found = l ++ d :: later →
                     parent_path d ∉ seen') as Hfresh.
  { intros seen' l Heq. apply (parents_to_scan_fresh seen' found).
    rewrite Heq. apply elem_of_app. right. by left. }
  case_decide as Hy.
  - intros Heq. destruct (IH _ _ Heq) as (before & after & -> & Hbefore & H1 & H2).
    exists (y :: before), after. split; [done|]. split; [|split; [|done]].
    + intros x [->|Hx]%elem_of_cons; [|by apply Hbefore].
      intros Hpp. apply (Hfresh _ _ Heq). by rewrite <- Hpp.
    + by apply sublist_cons.
  - destruct earlier as [|y' earlier]; intros [= <- Heq].
    + exists [], found. split; [done|]. split; [by intros x ?%elem_of_nil|].
      split; [done|]. rewrite <- Heq. apply parents_to_scan_sublist.
    + destruct (IH _ _ Heq) as (before & after & -> & Hbefore & H1 & H2).
      exists (y :: before), after. split; [done|]. split; [|split; [|done]].
      * intros x [->|Hx]%elem_of_cons; [|by apply Hbefore].
        intros Hpp. apply (Hfresh _ _ Heq). rewrite <- Hpp. by left.
      * by apply sublist_skip.
Qed.

(** The two searches agree with [contents] on every tree. *)
Lemma list_filter_bool {A} (f : A → bool) (l : list A) :
  List.filter f l = filter (fun a => f a = true) l.
Proof.
  induction l as [|a l IH]; [done|]. simpl. destruct (f a) eqn:Ha.
  - rewrite filter_cons_True by done. by rewrite IH.
  - rewrite filter_cons_False by (by rewrite Ha). exact IH.
Qed.

Lemma direct_from_named path self i cs :
  node <$> filter (fun x => name_matches "bibitem" (node x) = true)
             (direct_from path self i cs)
  = filter (fun c => name_matches "bibitem" c = true) cs.
Proof.
  revert i. induction cs as [|c cs IH]; intros i; [done|]. simpl.
  destruct (name_matches "bibitem" c) eqn:Hc.
  - rewrite !filter_cons_True by done. csimpl. by rewrite IH.
  - rewrite !filter_cons_False by (simpl; by rewrite Hc). apply IH.
Qed.

Lemma grouped_search_consistent (all : list Descendant) :
  (∀ d, d ∈ all →
     filter (fun x => parent_path x = parent_path d) all
     = direct_from (parent_path d) (parent d) 0 (contents_of (parent d))) →
  search_consistent (List.filter (fun d => name_matches "bibitem" (node d)) all).
Proof.
  intros Hgrouped d Hd. rewrite list_filter_bool in Hd.
  apply list_elem_of_filter in Hd as [_ Hd].
  rewrite list_filter_bool, list_filter_filter.
  rewrite <- (direct_from_named (parent_path d) (parent d) 0).
  rewrite <- (Hgrouped d Hd), list_filter_filter.
  f_equal. apply list_filter_iff. tauto.
Qed.

Lemma document_order_search_consistent soup :
  search_consistent (find_all_document_order soup "bibitem").
Proof. apply grouped_search_consistent, descendants_grouped. Qed.

Lemma children_first_search_consistent soup :
  search_consistent (find_all_children_first soup "bibitem").
Proof. apply grouped_search_consistent, children_first_grouped. Qed.

(** What a node of the document holds is in the document. *)
Lemma children_are_descendants c path ch :
  ch ∈ contents_of c → ch ∈ node <$> descendants path c.
Proof.
  destruct c as [e s cs|t|r]; [|by intros ?%elem_of_nil..].
  rewrite descendants_unfold. simpl. generalize (TexNode e s cs) as self.
  generalize 0. induction cs as [|c cs IH]; intros i self;
    [by intros ?%elem_of_nil|].
  simpl. rewrite fmap_app. intros [->|Hch]%elem_of_cons; [by left|].
  right. apply elem_of_app. right. by apply IH.
Qed.

Lemma contents_in_document c path x ch :
  x ∈ descendants path c → ch ∈ contents_of (node x) →
  ch ∈ node <$> descendants path c.
Proof.
  revert path x. induction c as [e s cs IH|t|r] using Content_nested_ind;
    intros path x; [|by intros ?%elem_of_nil..].
  rewrite descendants_unfold. generalize (TexNode e s cs) as self. generalize 0.
  induction IH as [|c cs Hc _ IHcs]; intros i self; simpl;
    [by intros ?%elem_of_nil|].
  rewrite fmap_app, elem_of_cons, elem_of_app. intros [->|[Hx|Hx]] Hch.
  - right. apply elem_of_app. left. by apply children_are_descendants.
  - right. apply elem_of_app. left. by apply (Hc _ x).
  - right. apply elem_of_app. right. by apply (IHcs (S i) self).
Qed.
End OrderFacts.

(** ** Claims about [extract] *)

Section ExtractFacts.
Import ScrapeTex Views.
Implicit Types (self : BibitemExtractor) (c : Content) (cs : list Content).

Lemma finalize_process_keys self c :
  key <$> bibitems (_finalize_bibitem (_process_content self c))
  = (key <$> bibitems (_finalize_bibitem self)) ++ option_list (marker_label c).
Proof.
  unfold marker_label, _process_content.
  destruct (bibitem_cmd c) as [args|]; simpl.
  - destruct (current_bibitem_label self) as [l|] eqn:Hl; simpl.
    + rewrite Hl. destruct (_extract_label args); simpl.
      * by rewrite !fmap_app.
      * by rewrite app_nil_r.
    + destruct (_extract_label args); simpl.
      * by rewrite !fmap_app.
      * by rewrite app_nil_r.
  - rewrite app_nil_r.
    destruct (current_bibitem_label self) as [l|] eqn:Hl; [|by rewrite Hl].
    destruct (content_text c) as [t|]; [|by rewrite Hl].
    destruct (_contains_break t); simpl; rewrite Hl; by rewrite !fmap_app.
Qed.

Lemma finalize_scan_keys self cs :
  key <$> bibitems (_finalize_bibitem (foldl _process_content self cs))
  = (key <$> bibitems (_finalize_bibitem self)) ++ marker_labels cs.
Proof.
  revert self. induction cs as [|c cs IH]; intros self.
  - by rewrite app_nil_r.
  - change (foldl _process_content self (c :: cs))
      with (foldl _process_content (_process_content self c) cs).
    rewrite IH, finalize_process_keys, <- app_assoc. f_equal.
    unfold marker_labels. simpl. by destruct (marker_label c).
Qed.

(** One item per labelled marker of the stream, in the order of the
    stream. *)
Lemma items_of_stream_keys cs : key <$> items_of_stream cs = marker_labels cs.
Proof. unfold items_of_stream. by rewrite finalize_scan_keys. Qed.

Lemma finalize_normalized self :
  Forall (fun b => normalized (text b)) (bibitems self) →
  Forall (fun b => normalized (text b)) (bibitems (_finalize_bibitem self)).
Proof.
  intros Hself. simpl. destruct (current_bibitem_label self); [|done].
  apply Forall_app. split; [done|]. constructor; [|constructor].
  apply clean_normalized.
Qed.

Lemma process_normalized self c :
  Forall (fun b => normalized (text b)) (bibitems self) →
  Forall (fun b => normalized (text b)) (bibitems (_process_content self c)).
Proof.
  intros Hself. unfold _process_content.
  destruct (bibitem_cmd c) as [args|].
  - destruct (current_bibitem_label self) eqn:Hl; [|done].
    change (bibitems (set_label (_finalize_bibitem self) (_extract_label args)))
      with (bibitems (_finalize_bibitem self)).
    by apply finalize_normalized.
  - destruct (current_bibitem_label self); [|done].
    destruct (content_text c) as [t|]; [|done].
    destruct (_contains_break t); [|done].
    by apply finalize_normalized.
Qed.

Lemma items_of_stream_normalized cs :
  Forall (fun b => normalized (text b)) (items_of_stream cs).
Proof.
  unfold items_of_stream. apply finalize_normalized.
  assert (Forall (fun b => normalized (text b)) (bibitems BibitemExtractor__init__))
    as Hinit by constructor.
  revert Hinit. generalize BibitemExtractor__init__.
  induction cs as [|c cs IH]; intros self Hself; simpl; [done|].
  by apply IH, process_normalized.
Qed.

Variable TexSoup : string → PyResult TexSoupExc Content.
Variable find_all : Content → string → list Descendant.

Lemma parse_tex_returned tex soup :
  TexSoup tex = Returned soup → parse_tex TexSoup tex = Returned soup.
Proof. unfold parse_tex. by intros ->. Qed.

Lemma unlabelled_parents_no_items tex heap soup :
  TexSoup tex = Returned soup →
  (∀ d, d ∈ find_all soup "bibitem" → marker_labels (contents_of (parent d)) = []) →
  (extract_bibitems TexSoup find_all tex heap).1 = Returned [].
Proof.
  intros Hparse Hnone.
  rewrite extract_bibitems_outcome, (parse_tex_returned _ _ Hparse). f_equal.
  apply (fmap_nil_inv key). rewrite items_of_stream_keys.
  apply marker_labels_nil. intros c Hc.
  apply list_elem_of_bind in Hc as (d & Hc & Hd).
  apply parents_to_scan_found in Hd.
  by apply (proj1 (marker_labels_nil _) (Hnone d Hd)).
Qed.

Lemma unlabelled_document_no_items tex heap soup :
  TexSoup tex = Returned soup →
  (∀ d, d ∈ find_all soup "bibitem" →
        parent d = soup ∨ parent d ∈ document_order soup) →
  marker_labels (document_order soup) = [] →
  (extract_bibitems TexSoup find_all tex heap).1 = Returned [].
Proof.
  intros Hparse Hparents Hnone. apply (unlabelled_parents_no_items _ _ soup Hparse).
  intros d Hd. apply marker_labels_nil. intros c Hc.
  apply (proj1 (marker_labels_nil _) Hnone).
  destruct (Hparents d Hd) as [Hroot|Hin].
  - rewrite Hroot in Hc. by apply children_are_descendants.
  - apply list_elem_of_fmap in Hin as (x & Hx & Hin). rewrite Hx in Hc.
    by apply (contents_in_document soup [] x).
Qed.

(** C2, amended: for a document that parses, [extract] returns one item
    per labelled marker among the contents that it scans, in the order of
    the scan: the parents of the found nodes in the order in which the
    search first yields one of their children, the contents of one parent in
    their own order.  When the search and [contents] agree, these are exactly
    the labelled markers that the search finds, each of them once, and they
    come in the order of the search when all found nodes lie under one
    parent.  The text of every item is whitespace-normalized. *)
Theorem extract_one_item_per_labelled_marker tex heap soup :
  TexSoup tex = Returned soup →
  ∃ items,
    (extract_bibitems TexSoup find_all tex heap).1 = Returned items
    ∧ key <$> items = marker_labels (scan_stream (find_all soup "bibitem"))
    ∧ (search_consistent (find_all soup "bibitem") →
       key <$> items ≡ₚ found_labels (find_all soup "bibitem"))
    ∧ (search_consistent (find_all soup "bibitem") →
       (∀ d d', d ∈ find_all soup "bibitem" → d' ∈ find_all soup "bibitem" →
                parent_path d = parent_path d') →
       key <$> items = found_labels (find_all soup "bibitem"))
    ∧ Forall (fun b => normalized (text b)) items.
Proof.
  intros Hparse. exists (items_of_stream (scan_stream (find_all soup "bibitem"))).
  rewrite extract_bibitems_outcome, (parse_tex_returned _ _ Hparse).
  split; [done|]. rewrite items_of_stream_keys.
  split; [done|]. split; [apply scan_stream_permutation|].
  split; [apply scan_stream_single_parent|apply items_of_stream_normalized].
Qed.

(** C6: two calls of [extract_bibitems] on the same text return the same,
    whatever was allocated before each of them, also when the second call
    follows the first; even the extractor object that an earlier call of
    [extract] has used answers as a new one does.  [join] reads nothing but
    its two arguments, so two calls on the same inputs agree; its loops start
    from empty lists for every entity, so the records of a list of entities
    are those of its parts, one after the other. *)
Theorem repeated_calls_agree tex tex0 heap heap' {D G}
    (entities entities' : list (UploadEntities.SerializableEntity D))
    (locs : list (UploadEntities.HueLocationInfo.t G)) :
  (extract_bibitems TexSoup find_all tex heap).1 = (extract_bibitems TexSoup find_all tex heap').1
  ∧ (let '(first, heap1) := extract_bibitems TexSoup find_all tex heap in
     let '(second, _) := extract_bibitems TexSoup find_all tex heap1 in
     first = second)
  ∧ (let '(_, used, heap1) := extract TexSoup find_all BibitemExtractor__init__ tex0 heap in
     (extract TexSoup find_all used tex heap1).1.1 = (extract_bibitems TexSoup find_all tex heap1).1)
  ∧ (let first := UploadEntities.join entities locs in
     let second := UploadEntities.join entities locs in
     first = second)
  ∧ UploadEntities.join (entities ++ entities') locs
    = UploadEntities.join entities locs ++ UploadEntities.join entities' locs.
Proof.
  split; [by rewrite !extract_bibitems_outcome|]. split; [|split; [|split; [done|]]].
  - pose proof (extract_bibitems_outcome TexSoup find_all tex heap) as H1.
    destruct (extract_bibitems TexSoup find_all tex heap) as [first heap1].
    pose proof (extract_bibitems_outcome TexSoup find_all tex heap1) as H2.
    destruct (extract_bibitems TexSoup find_all tex heap1) as [second heap2].
    simpl in *. congruence.
  - pose proof (extract_leaves TexSoup find_all BibitemExtractor__init__ tex0 heap
                  eq_refl eq_refl) as Hleft.
    destruct (extract TexSoup find_all BibitemExtractor__init__ tex0 heap)
      as [[r used] heap1].
    destruct Hleft as (Hl & Ht & _ & Hold).
    { intros h p Hp. by apply not_elem_of_empty in Hp. }
    rewrite extract_bibitems_outcome. apply extract_outcome; [done|done|].
    intros p Hp. apply Hold in Hp. lia.
  - by rewrite !join_fmap, fmap_app.
Qed.
End ExtractFacts.

Section ParseFailure.
Import ScrapeTex Views.
Variable TexSoup : string → PyResult TexSoupExc Content.
Variable find_all : Content → string → list Descendant.

Lemma extract_bibitems_failure tex heap :
  (extract_bibitems TexSoup find_all tex heap).1
  = match TexSoup tex with
    | Returned soup => Returned (items_of_stream (scan_stream (find_all soup "bibitem")))
    | Raised (TypeError msg) | Raised (EOFError msg) => Raised (TexSoupParseError msg)
    | Raised (OtherError cls msg) => Raised (Uncaught (OtherError cls msg))
    end.
Proof.
  rewrite extract_bibitems_outcome. unfold parse_tex.
  by destruct (TexSoup tex) as [soup|[msg|msg|cls msg]].
Qed.

(** C7, amended: [extract] fails with a [TexSoupParseError] that carries
    the message of the parser's failure exactly when the parser fails with
    a [TypeError] or an [EOFError]; any other failure of the parser leaves
    [extract] as it is, unwrapped.  Whenever the parser fails the call
    fails and returns no items, and the extractor object keeps its label,
    text and scanned nodes. *)
Theorem parse_failure_propagates tex heap :
  (∀ msg, (extract_bibitems TexSoup find_all tex heap).1 = Raised (TexSoupParseError msg)
          ↔ TexSoup tex = Raised (TypeError msg) ∨ TexSoup tex = Raised (EOFError msg))
  ∧ (∀ e, (extract_bibitems TexSoup find_all tex heap).1 = Raised (Uncaught e)
          ↔ TexSoup tex = Raised e ∧ ∃ cls msg, e = OtherError cls msg)
  ∧ ((∃ e, TexSoup tex = Raised e)
     ↔ ∃ e, (extract_bibitems TexSoup find_all tex heap).1 = Raised e)
  ∧ (∀ self e, parse_tex TexSoup tex = Raised e →
       extract TexSoup find_all self tex heap = (Raised e, reset_bibitems self, heap)).
Proof.
  rewrite extract_bibitems_failure. split; [|split; [|split]].
  - intros msg. split.
    + destruct (TexSoup tex) as [soup|[m|m|cls m]]; intros [= ->]; auto.
    + intros [-> | ->]; reflexivity.
  - intros e. split.
    + destruct (TexSoup tex) as [soup|[m|m|cls m]]; intros [= <-]; eauto.
    + intros [-> (cls & msg & ->)]. reflexivity.
  - split.
    + intros [e ->]. destruct e; eauto.
    + destruct (TexSoup tex) as [soup|e]; [by intros [e' [=]]|eauto].
  - intros self e He. unfold extract. by rewrite He.
Qed.
End ParseFailure.

(** ** The claims on concrete inputs *)

Section Instances.
Import ScrapeTex Views Examples.

(** The two extraction scenarios of the specification. *)
Example scenario_two_items :
  (extract_bibitems (parses_to two_items) find_all_children_first two_items_tex 0).1
  = Returned [{| key := "a"; text := "Alpha text." |};
              {| key := "b"; text := "Beta text." |}].
Proof. rewrite extract_bibitems_outcome. reflexivity. Qed.

Example scenario_stray_text :
  (extract_bibitems (parses_to stray_text) find_all_children_first stray_text_tex 0).1
  = Returned [{| key := "a"; text := "Alpha" |}; {| key := "b"; text := "Beta" |}].
Proof. rewrite extract_bibitems_outcome. reflexivity. Qed.

(** C2 as it is worded asks for document order on every document; a
    marker inside a nested block comes after the later markers of the
    enclosing block, whether the search yields the children of a node before
    what lies below them or yields the nodes in document order. *)
Lemma nested_block_not_in_document_order :
  parses_to nested_block nested_block_tex = Returned nested_block
  ∧ (extract_bibitems (parses_to nested_block) find_all_children_first
       nested_block_tex 0).1
    = Returned [{| key := "a"; text := "A" |}; {| key := "c"; text := "C" |};
                {| key := "b"; text := "B" |}]
  ∧ (extract_bibitems (parses_to nested_block) find_all_document_order
       nested_block_tex 0).1
    = Returned [{| key := "a"; text := "A" |}; {| key := "c"; text := "C" |};
                {| key := "b"; text := "B" |}]
  ∧ marker_labels (document_order nested_block) = ["a"; "b"; "c"]
  ∧ ¬ (∃ items,
         (extract_bibitems (parses_to nested_block) find_all_children_first
            nested_block_tex 0).1
         = Returned items
         ∧ key <$> items = marker_labels (document_order nested_block))
  ∧ ¬ (∃ items,
         (extract_bibitems (parses_to nested_block) find_all_document_order
            nested_block_tex 0).1
         = Returned items
         ∧ key <$> items = marker_labels (document_order nested_block)).
Proof.
  assert (∀ find_all,
            scan_stream (find_all nested_block "bibitem")
            = scan_stream (find_all_children_first nested_block "bibitem") →
            (extract_bibitems (parses_to nested_block) find_all nested_block_tex 0).1
            = Returned [{| key := "a"; text := "A" |}; {| key := "c"; text := "C" |};
                        {| key := "b"; text := "B" |}]) as Hrun.
  { intros find_all Hsame. rewrite extract_bibitems_outcome. simpl.
    rewrite Hsame. reflexivity. }
  split; [reflexivity|]. split; [by apply Hrun|]. split; [by apply Hrun|].
  split; [reflexivity|]. split.
  - rewrite Hrun by done. intros (items & [= <-] & Hkeys). discriminate Hkeys.
  - rewrite Hrun by done. intros (items & [= <-] & Hkeys). discriminate Hkeys.
Qed.

(** A labelled marker inside a bare group is no node of the tree: the
    search does not find it and it gives no item. *)
Example bare_group_gives_no_item :
  (extract_bibitems (parses_to with_bare_group) find_all_children_first
     with_bare_group_tex 0).1
  = Returned [{| key := "a"; text := "A" |}; {| key := "b"; text := "B" |}].
Proof. rewrite extract_bibitems_outcome. reflexivity. Qed.

Lemma extract_one_item_per_labelled_marker_witness :
  ∃ items,
    (extract_bibitems (parses_to two_items) find_all_children_first two_items_tex 0).1
    = Returned items
    ∧ key <$> items
      = marker_labels (scan_stream (find_all_children_first two_items "bibitem"))
    ∧ key <$> items ≡ₚ found_labels (find_all_children_first two_items "bibitem")
    ∧ key <$> items = found_labels (find_all_children_first two_items "bibitem")
    ∧ found_labels (find_all_children_first two_items "bibitem") = ["a"; "b"]
    ∧ Forall (fun b => normalized (text b)) items.
Proof.
  destruct (extract_one_item_per_labelled_marker (parses_to two_items)
              find_all_children_first two_items_tex 0 two_items eq_refl)
    as (items & Hrun & Hkeys & Hperm & Hone & Hnorm).
  exists items. split; [exact Hrun|]. split; [exact Hkeys|].
  split; [apply Hperm, children_first_search_consistent|].
  split; [|split; [reflexivity|exact Hnorm]].
  apply Hone; [apply children_first_search_consistent|].
  intros d d' Hd Hd'.
  repeat (apply elem_of_cons in Hd as [->|Hd]);
    repeat (apply elem_of_cons in Hd' as [->|Hd']);
    solve [reflexivity | by apply elem_of_nil in Hd | by apply elem_of_nil in Hd'].
Defined.

(** C3 as it is worded lets only horizontal whitespace stand between the
    two newlines of a break.  A line that holds a form feed, or the
    carriage return of a CR LF line end, ends the item as well, so less
    text is kept than the first break in that sense would leave. *)
Lemma horizontal_break_keeps_too_much :
  (current_bibitem_label open_a = Some "a"
   ∧ spec_search_break form_feed_line = Some 5
   ∧ bibitems (_process_content open_a (TokenWithPosition form_feed_line))
     = [{| key := "a"; text := "A" |}]
   ∧ bibitems (_process_content open_a (TokenWithPosition form_feed_line))
     ≠ bibitems open_a
       ++ [{| key := "a";
              text := _clean_bibitem_text
                        (bibitem_text open_a
                         +:+ spec_text_before_break form_feed_line) |}])
  ∧ (spec_search_break crlf_lines = Some 6
     ∧ bibitems (_process_content open_a (TokenWithPosition crlf_lines))
       = [{| key := "a"; text := "A" |}]
     ∧ bibitems (_process_content open_a (TokenWithPosition crlf_lines))
       ≠ bibitems open_a
         ++ [{| key := "a";
                text := _clean_bibitem_text
                          (bibitem_text open_a
                           +:+ spec_text_before_break crlf_lines) |}]).
Proof. repeat split; try reflexivity; discriminate. Qed.

Lemma break_closes_item_witness :
  foldl _process_content open_a
    (TokenWithPosition alpha_break_stray
     :: [TokenWithPosition "more stray text"; bibitem_without_label;
         TokenWithPosition "even more"]
     ++ [bibitem "b"])
  = foldl _process_content
      {| current_bibitem_label := None; bibitem_text := "";
         nodes_scanned := ∅;
         bibitems := [{| key := "a"; text := "Alpha" |}] |}
      [bibitem "b"].
Proof.
  refine (proj2 (proj2 (proj2
    (break_closes_item open_a "a" (TokenWithPosition alpha_break_stray)
       alpha_break_stray
       [TokenWithPosition "more stray text"; bibitem_without_label;
        TokenWithPosition "even more"]
       [bibitem "b"] eq_refl eq_refl eq_refl eq_refl _)))).
  repeat constructor.
Defined.

Lemma unlabelled_marker_drops_text_witness :
  foldl _process_content open_a
    (bibitem_without_label
     :: [TokenWithPosition "Knuth, The TeXbook."; structural]
     ++ [bibitem "b"])
  = foldl _process_content (_finalize_bibitem open_a) [bibitem "b"].
Proof.
  refine (proj2 (proj2 (proj2 (proj2 (proj2
    (unlabelled_marker_drops_text open_a bibitem_without_label [OArg "Knuth"]
       [TokenWithPosition "Knuth, The TeXbook."; structural] [bibitem "b"]
       _ eq_refl eq_refl _)))))).
  - discriminate.
  - repeat constructor.
Defined.

Lemma marker_label_is_first_required_argument_witness :
  current_bibitem_label (_process_content open_a bibitem_knuth) = Some "knuth84".
Proof.
  destruct (marker_label_is_first_required_argument open_a bibitem_knuth
              [OArg "Knuth"; RArg "knuth84"; RArg "extra"] eq_refl)
    as (_ & Hfirst & _).
  apply (Hfirst [OArg "Knuth"] "knuth84" [RArg "extra"] eq_refl).
  intros v Hv. apply list_elem_of_singleton in Hv. discriminate Hv.
Defined.


(** C7 as it is worded turns every failure to parse into a
    [TexSoupParseError]; a failure of another class is not wrapped. *)
Lemma other_parser_failure_is_not_wrapped :
  fails_with recursion_error deeply_nested_tex = Raised recursion_error
  ∧ (extract_bibitems (fails_with recursion_error) find_all_children_first deeply_nested_tex 0).1
    = Raised (Uncaught recursion_error)
  ∧ ¬ (∃ msg,
         (extract_bibitems (fails_with recursion_error) find_all_children_first deeply_nested_tex 0).1
         = Raised (TexSoupParseError msg)).
Proof.
  split; [reflexivity|]. split; [reflexivity|]. intros [msg Hmsg]. discriminate Hmsg.
Qed.

Lemma parse_failure_propagates_witness :
  (extract_bibitems (fails_with (EOFError "unexpected end of input")) find_all_children_first "\begin{a" 0).1
  = Raised (TexSoupParseError "unexpected end of input").
Proof.
  destruct (parse_failure_propagates (fails_with (EOFError "unexpected end of input"))
              find_all_children_first "\begin{a" 0) as (Hwrap & _).
  apply Hwrap. right. reflexivity.
Defined.
End Instances.

(** * Further properties of the code *)

(** ** Text cleaning *)

Section MoreTextFacts.
Import ScrapeTex Views MoreViews.

Lemma append_cons c s t : String c s +:+ t = String c (s +:+ t).
Proof. reflexivity. Qed.

Lemma append_nil_r s : s +:+ "" = s.
Proof. induction s as [|c s IH]; [done|]. by rewrite append_cons, IH. Qed.

Lemma append_assoc s t u : (s +:+ t) +:+ u = s +:+ (t +:+ u).
Proof. induction s as [|c s IH]; [done|]. by rewrite !append_cons, IH. Qed.

Lemma length_append s t : String.length (s +:+ t) = String.length s + String.length t.
Proof. induction s as [|c s IH]; [done|]. rewrite append_cons. simpl. by rewrite IH. Qed.

Lemma words_from_nonempty s word : word ≠ "" → words_from word s ≠ [].
Proof.
  revert word. induction s as [|c s IH]; intros word Hw; simpl.
  - by destruct word.
  - destruct (isspace c).
    + by destruct word.
    + apply IH. by destruct word.
Qed.

Lemma words_from_no_empty_word s word : Forall (fun w => w ≠ "") (words_from word s).
Proof.
  revert word. induction s as [|c s IH]; intros word; simpl.
  - destruct word; [constructor|]. by repeat constructor.
  - destruct (isspace c); [|apply IH].
    destruct word; [apply IH|]. constructor; [done|apply IH].
Qed.

Lemma unwords_cons w ws :
  ws ≠ [] → unwords (w :: ws) = w +:+ String space (unwords ws).
Proof. by destruct ws. Qed.

Lemma last_char_cons c s : s ≠ "" → last_char (String c s) = last_char s.
Proof. by destruct s. Qed.

(** Normalized text is its words joined by single spaces. *)
Lemma unwords_words_from s word :
  collapsed s →
  is_space_opt (last_char s) = false →
  (word = "" → is_space_opt (char_at 0 s) = false) →
  unwords (words_from word s) = word +:+ s.
Proof.
  revert word. induction s as [|c s IH]; intros word Hcol Hlast Hhead.
  - simpl. rewrite append_nil_r. by destruct word.
  - simpl in Hcol. destruct Hcol as [Hc Hcol]. simpl.
    destruct (isspace c) eqn:Hsp.
    + destruct (Hc eq_refl) as [-> Hnext].
      assert (s ≠ "") as Hs by (intros ->; simpl in Hlast; by rewrite Hsp in Hlast).
      rewrite last_char_cons in Hlast by done.
      destruct word as [|a word].
      { specialize (Hhead eq_refl). simpl in Hhead. by rewrite Hsp in Hhead. }
      assert (unwords (words_from "" s) = s) as Hrest by (by apply (IH "")).
      rewrite unwords_cons, Hrest; [done|].
      intros Hnil. rewrite Hnil in Hrest. simpl in Hrest. by destruct Hs.
    + rewrite IH, append_assoc; [done|done| |].
      * destruct s; [done|]. by rewrite last_char_cons in Hlast.
      * intros Hw. by destruct word.
Qed.

(** Cleaned text is its own words joined by single spaces. *)
Lemma clean_rejoined s :
  unwords (words (_clean_bibitem_text s)) = _clean_bibitem_text s.
Proof.
  unfold words. destruct (clean_normalized s) as (Hhead & Hlast & _).
  rewrite unwords_words_from; [done| |done|done].
  unfold _clean_bibitem_text, strip.
  apply rstrip_collapsed, lstrip_collapsed, sub_collapsed.
Qed.

(** X1: [_clean_bibitem_text] returns the whitespace-separated words of the
    text, in order, joined by single spaces (what [" ".join(text.split())]
    gives). *)
Theorem clean_is_words_joined s :
  _clean_bibitem_text s = unwords (words s).
Proof.
  rewrite <- (clean_words s). symmetry. apply clean_rejoined.
Qed.

(** X2: cleaning is idempotent: cleaned text is left as it is. *)
Theorem clean_idempotent s :
  _clean_bibitem_text (_clean_bibitem_text s) = _clean_bibitem_text s.
Proof.
  rewrite <- (clean_rejoined (_clean_bibitem_text s)).
  rewrite clean_words. apply clean_rejoined.
Qed.

Lemma words_empty_iff s : words_from "" s = [] ↔ all_chars isspace s = true.
Proof.
  induction s as [|c s IH]; simpl; [done|].
  destruct (isspace c); simpl; [exact IH|]. split; [|done].
  intros Hnil. by apply words_from_nonempty in Hnil.
Qed.

Lemma unwords_empty ws : Forall (fun w => w ≠ "") ws → unwords ws = "" → ws = [].
Proof.
  intros Hws. destruct Hws as [|w ws Hw Hws]; [done|]. simpl.
  destruct ws; [done|]. by destruct w.
Qed.

(** X3: the cleaned text is empty exactly when the text holds nothing but
    whitespace. *)
Theorem clean_empty_iff s :
  _clean_bibitem_text s = "" ↔ all_chars isspace s = true.
Proof.
  rewrite <- (clean_rejoined s), clean_words, <- words_empty_iff.
  unfold words. split.
  - apply unwords_empty, words_from_no_empty_word.
  - by intros ->.
Qed.

Lemma sub_length s in_run :
  (String.length (sub_whitespace_runs in_run s) ≤ String.length s)%nat.
Proof.
  revert in_run. induction s as [|c s IH]; intros in_run; simpl; [done|].
  destruct (isspace c); [destruct in_run|]; simpl;
    [specialize (IH true)|specialize (IH true)|specialize (IH false)]; lia.
Qed.

Lemma lstrip_length s : (String.length (lstrip s) ≤ String.length s)%nat.
Proof.
  induction s as [|c s IH]; simpl; [done|]. destruct (isspace c); simpl; lia.
Qed.

Lemma rstrip_length s : (String.length (rstrip s) ≤ String.length s)%nat.
Proof.
  induction s as [|c s IH]; simpl; [done|].
  destruct (rstrip s); [destruct (isspace c)|]; simpl in *; lia.
Qed.

(** X4: cleaning never makes the text longer. *)
Theorem clean_not_longer s :
  (String.length (_clean_bibitem_text s) ≤ String.length s)%nat.
Proof.
  unfold _clean_bibitem_text, strip.
  pose proof (rstrip_length (lstrip (sub_whitespace_runs false s))).
  pose proof (lstrip_length (sub_whitespace_runs false s)).
  pose proof (sub_length s false). lia.
Qed.
End MoreTextFacts.

(** ** The paragraph break *)

Section MoreBreakFacts.
Import ScrapeTex Views MoreViews.

(** X5: a text contains a break exactly when it holds two newlines with
    nothing but whitespace between them. *)
Theorem contains_break_iff t :
  _contains_break t = true
  ↔ ∃ before ws after,
      t = before +:+ String newline (ws +:+ String newline after)
      ∧ all_chars isspace ws = true.
Proof.
  rewrite contains_break_spec. split.
  - intros (k & before & ws & after & Ht & _ & Hws). by exists before, ws, after.
  - intros (before & ws & after & Ht & Hws).
    exists (String.length before), before, ws, after. done.
Qed.

Lemma break_at_extend s rest k : break_at s k → break_at (s +:+ rest) k.
Proof.
  intros (before & ws & after & -> & Hk & Hws).
  exists before, ws, (after +:+ rest). split; [|done].
  by rewrite append_assoc, append_cons, append_assoc, append_cons.
Qed.

Lemma break_at_inside s k : break_at s k → k < String.length s.
Proof.
  intros (before & ws & after & -> & <- & _).
  rewrite length_append. simpl. lia.
Qed.

(** X6: [_get_text_before_break] returns a beginning of the text that
    contains no break itself; it returns the whole text exactly when the
    text contains no break. *)
Theorem text_before_break_is_break_free_prefix t :
  string_prefix (_get_text_before_break t) t
  ∧ _contains_break (_get_text_before_break t) = false
  ∧ (_get_text_before_break t = t ↔ _contains_break t = false).
Proof.
  destruct (_contains_break t) eqn:Hbreak.
  - destruct (text_before_break_spec t Hbreak) as (ws & after & Ht & Hws & _ & Hfirst).
    split; [by eexists|]. split.
    + destruct (_contains_break (_get_text_before_break t)) eqn:Hin; [|done].
      apply contains_break_spec in Hin as [k Hk]. exfalso.
      apply (Hfirst k); [by apply break_at_inside|].
      rewrite Ht. by apply break_at_extend.
    + split; [|done]. intros Heq. apply (f_equal String.length) in Ht.
      rewrite Heq, length_append in Ht. simpl in Ht. lia.
  - assert (_get_text_before_break t = t) as Hsame.
    { unfold _get_text_before_break, _contains_break in *.
      by destruct (search_TEX_BREAK t). }
    rewrite Hsame. split; [exists ""; by rewrite append_nil_r|]. by split.
Qed.
End MoreBreakFacts.

(** ** More about the state machine and the scan *)

Section MoreMachineFacts.
Import ScrapeTex Views MoreViews.
Implicit Types (self : BibitemExtractor) (c : Content) (cs : list Content).

Lemma append_text_nil self : append_text self "" = self.
Proof. destruct self. unfold append_text. simpl. by rewrite append_nil_r. Qed.

Lemma append_text_twice self s t :
  append_text (append_text self s) t = append_text self (s +:+ t).
Proof. unfold append_text. simpl. by rewrite append_assoc. Qed.

Lemma scan_plain_body self label body :
  current_bibitem_label self = Some label →
  Forall plain_body body →
  foldl _process_content self body = append_text self (texts_of body).
Proof.
  intros Hl Hbody. revert self Hl.
  induction Hbody as [|c body [Hc Ht] _ IH]; intros self Hl; simpl.
  - by rewrite append_text_nil.
  - unfold _process_content at 2. rewrite Hc, Hl.
    destruct (content_text c) as [t|]; [|by apply IH].
    rewrite (Ht t eq_refl), IH by done. apply append_text_twice.
Qed.

(** X7: the text that stands between a marker with a label and the end of
    its item, free of paragraph breaks, is concatenated fragment by fragment
    and cleaned once: the item carries the cleaned concatenation, whether it
    is closed by the next marker or by the end of the scan. *)
Theorem item_text_is_cleaned_concatenation self c args label body :
  label_invariant self →
  bibitem_cmd c = Some args →
  _extract_label args = Some label →
  Forall plain_body body →
  bibitem_text (foldl _process_content self (c :: body)) = texts_of body
  ∧ bibitems (_finalize_bibitem (foldl _process_content self (c :: body)))
    = bibitems (_finalize_bibitem self)
      ++ [{| key := label; text := _clean_bibitem_text (texts_of body) |}]
  ∧ ∀ c' args', bibitem_cmd c' = Some args' →
      bibitems (foldl _process_content self (c :: body ++ [c']))
      = bibitems (_finalize_bibitem self)
        ++ [{| key := label; text := _clean_bibitem_text (texts_of body) |}].
Proof.
  intros Hinv Hc Hlabel Hbody.
  assert (foldl _process_content self (c :: body)
          = append_text (set_label (_finalize_bibitem self) (Some label))
                        (texts_of body)) as Hscan.
  { simpl. rewrite (process_marker self c args Hinv Hc), Hlabel.
    by apply (scan_plain_body _ label). }
  split; [by rewrite Hscan|]. split; [by rewrite Hscan|].
  intros c' args' Hc'.
  change (c :: body ++ [c']) with ((c :: body) ++ [c']).
  rewrite foldl_app, Hscan. simpl. unfold _process_content. by rewrite Hc'.
Qed.

(** X8: whatever precedes the first marker with a label is ignored: a new
    extractor that meets such content first ends in the same state as one
    that never met it. *)
Theorem content_before_first_label_is_ignored pre cs :
  Forall (fun c => marker_label c = None) pre →
  foldl _process_content BibitemExtractor__init__ (pre ++ cs)
  = foldl _process_content BibitemExtractor__init__ cs.
Proof.
  intros Hpre. rewrite foldl_app.
  by rewrite (scan_unlabelled BibitemExtractor__init__ pre eq_refl Hpre).
Qed.

Variable TexSoup : string → PyResult TexSoupExc Content.
Variable find_all : Content → string → list Descendant.

(** X9: a document in which no marker has a label gives the empty list, not
    an error: when the contents of no scanned parent hold a labelled marker;
    when the search agrees with [contents] and finds no labelled marker; and
    when the document has no labelled marker at all, for a search that yields
    nodes of the document, as the two searches do. *)
Theorem no_labelled_marker_no_items tex heap soup :
  TexSoup tex = Returned soup →
  ((∀ d, d ∈ find_all soup "bibitem" →
         marker_labels (contents_of (parent d)) = []) →
   (extract_bibitems TexSoup find_all tex heap).1 = Returned [])
  ∧ (search_consistent (find_all soup "bibitem") →
     found_labels (find_all soup "bibitem") = [] →
     (extract_bibitems TexSoup find_all tex heap).1 = Returned [])
  ∧ ((∀ d, d ∈ find_all soup "bibitem" →
           parent d = soup ∨ parent d ∈ document_order soup) →
     marker_labels (document_order soup) = [] →
     (extract_bibitems TexSoup find_all tex heap).1 = Returned [])
  ∧ (marker_labels (document_order soup) = [] →
     (extract_bibitems TexSoup find_all_document_order tex heap).1 = Returned []
     ∧ (extract_bibitems TexSoup find_all_children_first tex heap).1 = Returned []).
Proof.
  intros Hparse. split; [by apply (unlabelled_parents_no_items _ _ _ _ soup)|].
  split; [|split; [by apply (unlabelled_document_no_items _ _ _ _ soup)|]].
  - intros Hcons Hnone.
    rewrite extract_bibitems_outcome, (parse_tex_returned _ _ _ Hparse). f_equal.
    apply (fmap_nil_inv key). rewrite items_of_stream_keys.
    apply Permutation_nil_r. rewrite <- Hnone. by apply scan_stream_permutation.
  - intros Hnone. split.
    + apply (unlabelled_document_no_items _ _ _ _ soup Hparse); [|done].
      intros d Hd. apply find_all_document_order_elem in Hd as [Hd _].
      by apply descendants_parent.
    + apply (unlabelled_document_no_items _ _ _ _ soup Hparse); [|done].
      intros d Hd. apply find_all_children_first_elem in Hd as [Hd _].
      by apply children_first_parent.
Qed.

(** X10: [extract] makes one pass over the contents of the parents of the
    found nodes.  The scanned nodes are taken from the found ones in the
    order of the search, one for every parent of a found node, and each of
    them is the first found node of its parent: no found node before it has
    that parent, the nodes scanned earlier are found before it and the nodes
    scanned later after it.  The item that is open at the end of one parent
    is closed only by what the next parent holds or by the end of the
    pass. *)
Theorem extract_scans_each_parent_once tex heap soup :
  TexSoup tex = Returned soup →
  ∃ scanned,
    (extract_bibitems TexSoup find_all tex heap).1
    = Returned
        (bibitems
           (_finalize_bibitem
              (foldl _process_content BibitemExtractor__init__
                 (scanned ≫= (fun d => contents_of (parent d))))))
    ∧ scanned = parents_to_scan [] (find_all soup "bibitem")
    ∧ scanned `sublist_of` find_all soup "bibitem"
    ∧ NoDup (parent_path <$> scanned)
    ∧ (∀ d, d ∈ find_all soup "bibitem" → parent_path d ∈ parent_path <$> scanned)
    ∧ (∀ earlier d later, scanned = earlier ++ d :: later →
         first_of_parent (find_all soup "bibitem") earlier d later).
Proof.
  intros Hparse. exists (parents_to_scan [] (find_all soup "bibitem")).
  rewrite extract_bibitems_outcome, (parse_tex_returned _ _ _ Hparse).
  split; [done|]. split; [done|]. split; [apply parents_to_scan_sublist|].
  split; [apply parents_to_scan_NoDup|]. split.
  - intros d Hd.
    destruct (parents_to_scan_covers [] _ d Hd) as [Hin|Hin]; [|done].
    by apply elem_of_nil in Hin.
  - intros earlier d later. apply parents_to_scan_first_of_parent.
Qed.

Lemma extract_all_keeps self texts heap :
  current_bibitem_label self = None → bibitem_text self = "" →
  (∀ h p, (h, p) ∈ nodes_scanned self → (h < heap)%nat) →
  let '(self', heap') := extract_all TexSoup find_all self texts heap in
  current_bibitem_label self' = None ∧ bibitem_text self' = ""
  ∧ (∀ h p, (h, p) ∈ nodes_scanned self' → (h < heap')%nat).
Proof.
  revert self heap. induction texts as [|tex texts IH]; intros self heap Hl Ht Hold;
    simpl; [done|].
  pose proof (extract_leaves TexSoup find_all self tex heap Hl Ht Hold) as Hleft.
  destruct (extract TexSoup find_all self tex heap) as [[r self1] heap1].
  destruct Hleft as (Hl1 & Ht1 & _ & Hold1). by apply IH.
Qed.

(** X11: an extractor object that has served any number of earlier texts
    returns for the next text what a new extractor returns. *)
Theorem reused_extractor_agrees texts tex heap :
  let '(self, heap') := extract_all TexSoup find_all BibitemExtractor__init__ texts heap in
  (extract TexSoup find_all self tex heap').1.1 = (extract_bibitems TexSoup find_all tex heap').1.
Proof.
  pose proof (extract_all_keeps BibitemExtractor__init__ texts heap eq_refl eq_refl)
    as Hkeeps.
  destruct (extract_all TexSoup find_all BibitemExtractor__init__ texts heap) as [self heap'].
  destruct Hkeeps as (Hl & Ht & Hold).
  { intros h p Hp. by apply not_elem_of_empty in Hp. }
  rewrite extract_bibitems_outcome. apply extract_outcome; [done|done|].
  intros p Hp. apply Hold in Hp. lia.
Qed.
End MoreMachineFacts.

(** ** More about the grouping of [load] *)

Section MoreLoadFacts.
Import UploadEntities.
Context {D G : Type}.
Implicit Types (e : SerializableEntity D) (h : HueLocationInfo.t G).
Implicit Types (entities : list (SerializableEntity D)).
Implicit Types (locs : list (HueLocationInfo.t G)).

Lemma filter_either {A} (P Q : A → Prop)
    `{∀ a, Decision (P a)} `{∀ a, Decision (Q a)} (l : list A) :
  (∀ a, P a → Q a → False) →
  filter (fun a => P a ∨ Q a) l ≡ₚ filter P l ++ filter Q l.
Proof.
  intros Hdisjoint. induction l as [|a l IH]; [done|].
  destruct (decide (P a)) as [HP|HP]; destruct (decide (Q a)) as [HQ|HQ].
  - by destruct (Hdisjoint a).
  - rewrite (filter_cons_True P), (filter_cons_False Q), filter_cons_True by tauto.
    simpl. by rewrite IH.
  - rewrite (filter_cons_False P), (filter_cons_True Q), filter_cons_True by tauto.
    rewrite IH. apply Permutation_middle.
  - rewrite (filter_cons_False P), (filter_cons_False Q), filter_cons_False by tauto.
    exact IH.
Qed.

(** X12: when no two entities share a composite key, as the comment in
    [load] asks, every location record is attached to at most one entity:
    the attached records, taken together, are the records of the input whose
    key is the key of some entity, each as often as the input has it. *)
Theorem unique_keys_attach_each_location_once entities locs :
  NoDup (entity_key <$> entities) →
  (join entities locs ≫= locations)
  ≡ₚ filter (fun h => location_key h ∈ entity_key <$> entities) locs
  ∧ (join entities locs ≫= locations) ⊆+ locs.
Proof.
  intros Hkeys.
  assert ((join entities locs ≫= locations)
          ≡ₚ filter (fun h => location_key h ∈ entity_key <$> entities) locs)
    as Hperm.
  { rewrite join_fmap.
    induction entities as [|e entities IH]; csimpl.
    - symmetry. apply Permutation_refl'. apply filter_none.
      intros h _ Hin. by apply elem_of_nil in Hin.
    - apply NoDup_cons in Hkeys as [Hfresh Hkeys]. rewrite (IH Hkeys).
      rewrite <- filter_either.
      + apply Permutation_refl'. apply list_filter_iff. intros h.
        rewrite elem_of_cons. done.
      + intros h Hh Hin. apply Hfresh. by rewrite <- Hh. }
  split; [exact Hperm|]. rewrite Hperm. apply sublist_submseteq, sublist_filter.
Qed.

(** X13: the grouping can be done on parts of the location input: the
    locations that an entity gets from two inputs put one after the other
    are those it gets from the first followed by those it gets from the
    second. *)
Theorem join_locations_in_parts entities locs1 locs2 :
  join entities (locs1 ++ locs2)
  = zip_with (fun r1 r2 => Build_EntityAndLocation (entity r1)
                             (locations r1 ++ locations r2))
             (join entities locs1) (join entities locs2).
Proof.
  rewrite !join_fmap. induction entities as [|e entities IH]; [done|].
  csimpl. by rewrite IH, filter_app.
Qed.
End MoreLoadFacts.

(** ** The loop of [load] over the papers *)

Section LoadCommandFacts.
Import UploadEntities UploadCommand MoreViews.
Context {D G : Type}.
Variable arxiv_subdir : string → string → string.
Variable path_join : string → string → string.
Variable path_exists : string → bool.
Variable read_file : string → string.
Variable glob : string → list string.
Variable basename : string → string.
Variable load_entities_from_csv : string → EntityType → list (SerializableEntity D).
Variable load_hue_locations_from_csv : string → list (HueLocationInfo.t G).
Variable entity_name : string.
Variable DetectedEntityType : DetectedEntityTypeArg.

Local Abbreviation load_all_entities :=
  (load_all_entities (G:=G) arxiv_subdir path_join glob basename
     load_entities_from_csv entity_name DetectedEntityType).
Local Abbreviation load_paper :=
  (load_paper arxiv_subdir path_join path_exists read_file glob basename
     load_entities_from_csv load_hue_locations_from_csv entity_name
     DetectedEntityType).
Local Abbreviation load :=
  (load arxiv_subdir path_join path_exists read_file glob basename
     load_entities_from_csv load_hue_locations_from_csv entity_name
     DetectedEntityType).
Local Abbreviation entity_files := (entity_files arxiv_subdir path_join glob entity_name).
Local Abbreviation entities_of_paper :=
  (entities_of_paper arxiv_subdir path_join glob basename load_entities_from_csv
     entity_name DetectedEntityType).
Local Abbreviation result_of_paper :=
  (result_of_paper arxiv_subdir path_join read_file glob basename
     load_entities_from_csv load_hue_locations_from_csv entity_name
     DetectedEntityType).
Local Abbreviation warnings_of_paper :=
  (warnings_of_paper arxiv_subdir path_join glob basename entity_name
     DetectedEntityType path_exists).
Local Abbreviation has_s2_id :=
  (fun arxiv_id => path_exists (s2_id_path arxiv_subdir path_join arxiv_id) = true).

Lemma self_get_detected_entity_type_spec filename :
  self_get_detected_entity_type (D:=D) (G:=G) DetectedEntityType (Some filename)
  = (Returned (entity_type_of DetectedEntityType filename),
     Logged <$> entity_type_warnings DetectedEntityType filename).
Proof.
  unfold self_get_detected_entity_type, get_detected_entity_type, dict_getitem,
    entity_type_of, entity_type_warnings.
  destruct DetectedEntityType as [d|t|]; [|done|done].
  by destruct (d !! filename).
Qed.

Lemma entity_files_loop paths acc :
  for_each (D:=D) (G:=G) paths acc
    (fun entities entities_path =>
       bind (self_get_detected_entity_type DetectedEntityType
               (Some (basename entities_path)))
         (fun entity_type =>
            ret (entities ++ load_entities_from_csv entities_path entity_type)))
  = (Returned
       (acc ++ (paths ≫= (fun path =>
                  load_entities_from_csv path
                    (entity_type_of DetectedEntityType (basename path))))),
     Logged <$> (paths ≫= (fun path =>
                   entity_type_warnings DetectedEntityType (basename path)))).
Proof.
  revert acc. induction paths as [|p paths IH]; intros acc; csimpl.
  - unfold ret. by rewrite app_nil_r.
  - rewrite self_get_detected_entity_type_spec. unfold bind at 2. unfold ret.
    unfold bind. rewrite IH. by rewrite app_nil_r, <- app_assoc, fmap_app.
Qed.

Lemma load_all_entities_spec arxiv_id :
  load_all_entities arxiv_id
  = (Returned (entities_of_paper arxiv_id),
     Logged <$> (entity_files arxiv_id
                 ≫= (fun path => entity_type_warnings DetectedEntityType
                                   (basename path)))).
Proof. unfold UploadCommand.load_all_entities. by rewrite entity_files_loop. Qed.

Lemma load_paper_spec arxiv_id :
  load_paper arxiv_id
  = (Returned tt,
     (Logged <$> warnings_of_paper arxiv_id)
     ++ (if path_exists (s2_id_path arxiv_subdir path_join arxiv_id)
         then [Yielded (result_of_paper arxiv_id)] else [])).
Proof.
  unfold UploadCommand.load_paper, MoreViews.warnings_of_paper.
  destruct (path_exists (s2_id_path arxiv_subdir path_join arxiv_id)); simpl.
  - by rewrite load_all_entities_spec.
  - done.
Qed.

Lemma load_spec arxiv_ids :
  load arxiv_ids = (Returned tt, arxiv_ids ≫= (fun arxiv_id => (load_paper arxiv_id).2)).
Proof.
  unfold UploadCommand.load.
  induction arxiv_ids as [|arxiv_id arxiv_ids IH]; csimpl; [done|].
  rewrite load_paper_spec. unfold bind. by rewrite IH.
Qed.

Lemma join_entities (entities : list (SerializableEntity D))
    (locs : list (HueLocationInfo.t G)) :
  entity <$> join entities locs = entities.
Proof.
  rewrite join_fmap, <- list_fmap_compose.
  induction entities as [|e entities IH]; [done|]. csimpl. by rewrite IH.
Qed.

Lemma yields_logged (records : list LogRecord) :
  yields (D:=D) (G:=G) (Logged <$> records) = [].
Proof. induction records as [|r records IH]; [done|]. exact IH. Qed.

Lemma warnings_logged (records : list LogRecord) :
  warnings (D:=D) (G:=G) (Logged <$> records) = records.
Proof. induction records as [|r records IH]; [done|]. csimpl. by rewrite IH. Qed.

(** X14: [load] never raises: a paper without S2 id file is passed over and
    the papers after it are still processed.  It yields one result per paper
    that has an S2 id file, in the order of [arxiv_ids]; the result holds the
    content of that file and one record per row of the entity files of the
    paper, file after file. *)
Theorem load_yields_one_result_per_paper_with_s2_id arxiv_ids :
  (load arxiv_ids).1 = Returned tt
  ∧ yields (load arxiv_ids).2 = result_of_paper <$> filter has_s2_id arxiv_ids
  ∧ arxiv_id <$> yields (load arxiv_ids).2 = filter has_s2_id arxiv_ids
  ∧ Forall (fun r => entity <$> localized_entities r = entities_of_paper (arxiv_id r))
      (yields (load arxiv_ids).2).
Proof.
  rewrite load_spec. simpl.
  assert (yields (arxiv_ids ≫= (fun arxiv_id => (load_paper arxiv_id).2))
          = result_of_paper <$> filter has_s2_id arxiv_ids) as Hyields.
  { induction arxiv_ids as [|id ids IH]; [done|].
    rewrite bind_cons. unfold yields in *. rewrite omap_app, IH.
    rewrite load_paper_spec. simpl. rewrite omap_app.
    fold (yields (D:=D) (G:=G) (Logged <$> warnings_of_paper id)).
    rewrite yields_logged.
    destruct (path_exists (s2_id_path arxiv_subdir path_join id)) eqn:Hid.
    - by rewrite filter_cons_True.
    - by rewrite filter_cons_False by (by rewrite Hid). }
  split; [done|]. rewrite Hyields. split; [done|]. split.
  - rewrite <- list_fmap_compose. clear Hyields.
    induction (filter has_s2_id arxiv_ids) as [|id ids IH]; [done|].
    csimpl. by rewrite IH.
  - apply Forall_fmap, Forall_forall. intros id _. simpl. apply join_entities.
Qed.
(** X15: the warnings of [load] are, paper by paper in the order of
    [arxiv_ids], one warning for a paper without S2 id file and otherwise one
    warning per entity file whose name the supplied dict does not hold. *)
Theorem load_warnings_paper_by_paper arxiv_ids :
  warnings (load arxiv_ids).2 = arxiv_ids ≫= warnings_of_paper.
Proof.
  rewrite load_spec. simpl.
  induction arxiv_ids as [|id ids IH]; [done|].
  rewrite !bind_cons. unfold warnings in *. rewrite omap_app, IH. f_equal.
  rewrite load_paper_spec. simpl. rewrite omap_app.
  fold (warnings (D:=D) (G:=G) (Logged <$> warnings_of_paper id)).
  rewrite warnings_logged.
  destruct (path_exists (s2_id_path arxiv_subdir path_join id)); simpl;
    by rewrite app_nil_r.
Qed.

(** X16: nothing is carried from one paper to the next: what [load] does
    for a list of papers is what it does for a first part of the list
    followed by what it does for the rest. *)
Theorem load_in_parts arxiv_ids1 arxiv_ids2 :
  (load (arxiv_ids1 ++ arxiv_ids2)).2 = (load arxiv_ids1).2 ++ (load arxiv_ids2).2.
Proof. rewrite !load_spec. simpl. apply bind_app. Qed.
End LoadCommandFacts.

(** ** The names that [make_upload_entities_command] derives *)

Section CommandNames.
Import UploadCommand.

Lemma append_cancel_r s t u : s +:+ u = t +:+ u → s = t.
Proof.
  revert t. induction s as [|c s IH]; intros [|c' t] Heq; [done| | |].
  - apply (f_equal String.length) in Heq.
    rewrite !length_append in Heq. simpl in Heq. lia.
  - apply (f_equal String.length) in Heq.
    rewrite !length_append in Heq. simpl in Heq. lia.
  - rewrite !append_cons in Heq. injection Heq as -> Heq. f_equal. by apply IH.
Qed.

Lemma append_cancel_l s t u : s +:+ t = s +:+ u → t = u.
Proof.
  induction s as [|c s IH]; [done|]. rewrite !append_cons. intros [= Heq]. by apply IH.
Qed.

(** X17: two entity names never share a command name or a directory key,
    and for one entity name the directory of the detected entities is never
    the directory of the locations; the latter is also where the command
    looks for the list of papers. *)
Theorem command_names_do_not_collide (a b : string) :
  (get_name a = get_name b → a = b)
  ∧ (get_detected_entities_dirkey a = get_detected_entities_dirkey b → a = b)
  ∧ (get_hue_locations_dirkey a = get_hue_locations_dirkey b → a = b)
  ∧ get_detected_entities_dirkey a ≠ get_hue_locations_dirkey a
  ∧ get_arxiv_ids_dirkey a = get_hue_locations_dirkey a.
Proof.
  unfold get_name, get_detected_entities_dirkey, get_arxiv_ids_dirkey,
    get_hue_locations_dirkey.
  split; [apply append_cancel_l|]. split; [apply append_cancel_l|].
  split; [apply append_cancel_r|]. split; [|done].
  intros Heq. apply (f_equal String.length) in Heq.
  rewrite !length_append in Heq. simpl in Heq. lia.
Qed.
End CommandNames.

(** ** Invariants of the state machine *)

Section MachineInvariants.
Import ScrapeTex Views MoreViews.
Implicit Types (self : BibitemExtractor) (cs : list Content).

(** X18: an item that has been emitted is never removed or changed: the
    list of items before a scan is a beginning of the list after it, and
    the final [_finalize_bibitem] only appends as well. *)
Theorem emitted_items_are_kept self cs :
  bibitems self `prefix_of` bibitems (foldl _process_content self cs)
  ∧ bibitems (foldl _process_content self cs)
    `prefix_of` bibitems (_finalize_bibitem (foldl _process_content self cs)).
Proof.
  split.
  - destruct (scan_appends self cs) as [more ->]. by exists more.
  - destruct (finalize_appends (foldl _process_content self cs)) as [more ->].
    by exists more.
Qed.

(** X19: the buffer holds text only while a label is set: in every state
    that a new extractor reaches, an absent label comes with an empty
    buffer, so a label that is set later never inherits earlier text. *)
Theorem buffer_is_empty_without_label cs :
  current_bibitem_label (foldl _process_content BibitemExtractor__init__ cs) = None →
  bibitem_text (foldl _process_content BibitemExtractor__init__ cs) = "".
Proof.
  apply (invariant_scan BibitemExtractor__init__ cs). apply invariant_init.
Qed.
End MachineInvariants.

(** ** The further properties on concrete inputs *)

Section MoreInstances.
Import UploadEntities UploadCommand ScrapeTex Views MoreViews Examples MoreExamples.

(** A run of [load] over a paper without S2 id and a paper with two entity
    files, one of which has no type in the dict. *)
Example load_two_papers :
  fs_load ["1601.00002"; "1601.00001"]
  = (Returned tt,
     [Logged (Warning "Could not find S2 ID file for 1601.00002. Skipping");
      Logged (no_entity_type_warning "entities-b.csv");
      Yielded {| arxiv_id := "1601.00001"; s2_id := "s2-42";
                 localized_entities :=
                   [Build_EntityAndLocation e1
                      [box "e1" "p.tex" "A"; box "e1" "p.tex" "B"];
                    Build_EntityAndLocation e2 []] |}]).
Proof. vm_compute. reflexivity. Qed.

Lemma item_text_is_cleaned_concatenation_witness :
  bibitems (_finalize_bibitem
              (foldl _process_content open_a (bibitem "knuth84" :: body_fragments)))
  = bibitems (_finalize_bibitem open_a)
    ++ [{| key := "knuth84"; text := "D. Knuth. The TeXbook, 1984." |}].
Proof.
  refine (proj1 (proj2
    (item_text_is_cleaned_concatenation open_a (bibitem "knuth84") [RArg "knuth84"]
       "knuth84" body_fragments _ eq_refl eq_refl _))).
  - discriminate.
  - unfold body_fragments, plain_body. repeat constructor; simpl; try done;
      intros t [= <-]; reflexivity.
Defined.

Lemma content_before_first_label_is_ignored_witness :
  foldl _process_content BibitemExtractor__init__
    ([TokenWithPosition "References"; bibitem_without_label;
      TokenWithPosition "lost"] ++ [bibitem "a"; TokenWithPosition "kept"])
  = foldl _process_content BibitemExtractor__init__
      [bibitem "a"; TokenWithPosition "kept"].
Proof.
  apply (content_before_first_label_is_ignored
           [TokenWithPosition "References"; bibitem_without_label;
            TokenWithPosition "lost"]).
  repeat constructor.
Defined.

Lemma no_labelled_marker_no_items_witness :
  (extract_bibitems (parses_to no_references) find_all_children_first
     no_references_tex 0).1
  = Returned []
  ∧ (extract_bibitems (parses_to no_references) find_all_document_order
       no_references_tex 0).1
    = Returned [].
Proof.
  destruct (no_labelled_marker_no_items (parses_to no_references)
              find_all_children_first no_references_tex 0 no_references eq_refl)
    as (Hparents & Hfound & Hdocument & Hboth).
  split.
  - apply Hfound; [apply children_first_search_consistent|reflexivity].
  - apply Hboth. reflexivity.
Defined.

Lemma extract_scans_each_parent_once_witness :
  ∃ scanned,
    (extract_bibitems (parses_to nested_block) find_all_children_first
       nested_block_tex 0).1
    = Returned
        (bibitems
           (_finalize_bibitem
              (foldl _process_content BibitemExtractor__init__
                 (scanned ≫= (fun d => contents_of (parent d))))))
    ∧ scanned = parents_to_scan [] (find_all_children_first nested_block "bibitem")
    ∧ scanned `sublist_of` find_all_children_first nested_block "bibitem"
    ∧ NoDup (parent_path <$> scanned)
    ∧ (∀ d, d ∈ find_all_children_first nested_block "bibitem" →
            parent_path d ∈ parent_path <$> scanned)
    ∧ (∀ earlier d later, scanned = earlier ++ d :: later →
         first_of_parent (find_all_children_first nested_block "bibitem")
           earlier d later).
Proof.
  exact (extract_scans_each_parent_once (parses_to nested_block)
           find_all_children_first nested_block_tex 0 nested_block eq_refl).
Defined.

Lemma unique_keys_attach_each_location_once_witness :
  (join [e1; e2] three_boxes ≫= locations) ⊆+ three_boxes.
Proof.
  refine (proj2 (unique_keys_attach_each_location_once [e1; e2] three_boxes _)).
  simpl. apply NoDup_cons. split; [|apply NoDup_singleton].
  intros Hin. apply list_elem_of_singleton in Hin. discriminate Hin.
Defined.

Lemma buffer_is_empty_without_label_witness :
  bibitem_text
    (foldl _process_content BibitemExtractor__init__
       [bibitem "a"; TokenWithPosition alpha_break_stray;
        TokenWithPosition "stray"; bibitem_without_label; TokenWithPosition "lost"])
  = "".
Proof.
  apply (buffer_is_empty_without_label
           [bibitem "a"; TokenWithPosition alpha_break_stray;
            TokenWithPosition "stray"; bibitem_without_label;
            TokenWithPosition "lost"]).
  reflexivity.
Defined.

Lemma command_names_do_not_collide_witness :
  get_detected_entities_dirkey "symbols" ≠ get_hue_locations_dirkey "symbols".
Proof.
  exact (proj1 (proj2 (proj2 (proj2
           (command_names_do_not_collide "symbols" "symbols"))))).
Defined.
End MoreInstances.
